(** * Ripmaster: job discovery, checkpointing and the stage runner

    A shallow embedding of [Ripmaster.py].  The script has two functions,
    [get_movies] and [main]; both are modelled here.  Python lists that
    are mutated while a [for] statement walks them are modelled with the
    iterator's index written out, because that is where the behaviour of
    the script differs from a plain filter.  The two checkpoint files,
    standard output and the calls to the external tools are modelled as
    an explicit process state threaded through a small monad that can
    also raise a Python exception or be killed between two effects. *)

From Stdlib Require Import List String Ascii Bool Arith Lia.
Import ListNotations.
Local Open Scope string_scope.
Local Open Scope list_scope.

(* ================================================================== *)
(** * Strings *)

(** Python's [needle in hay] on strings: [needle] occurs as a contiguous
    substring of [hay]. *)
Fixpoint str_in (needle hay : string) : bool :=
  if String.prefix needle hay then true
  else match hay with
       | EmptyString => false
       | String _ hay' => str_in needle hay'
       end.


(* ================================================================== *)
(** * Exceptions and results *)

(** The Python exceptions that matter to the control flow of the
    script.  [UnpicklingError] stands for what [pickle.load] raises on
    bytes that are not a pickle, [ToolError] for whatever a method of
    [Movie] raises when its external tool fails. *)
Inductive Exn : Type :=
| IOError
| EOFError
| OSError
| UnpicklingError
| ToolError.

Definition Exn_eqb (a b : Exn) : bool :=
  match a, b with
  | IOError, IOError | EOFError, EOFError | OSError, OSError
  | UnpicklingError, UnpicklingError | ToolError, ToolError => true
  | _, _ => false
  end.

Inductive result (A : Type) : Type :=
| Ok (a : A)
| Raise (e : Exn).
Arguments Ok {A} a.
Arguments Raise {A} e.

(* ================================================================== *)
(** * Movies *)

Inductive Stage : Type := Extract | Convert | Encode | Merge.

(** Modelled from the spec: the class [Movie] of the module [tools],
    which [Ripmaster.py] imports and which is not part of the sources at
    hand.  The script reads the attributes [path], [extracted],
    [converted], [encoded] and [merged]; the constructor arguments are
    kept as [root], [subdir] and [fileName]. *)
Record Movie : Type := mkMovie {
  root : string;
  subdir : string;
  fileName : string;
  path : string;
  extracted : bool;
  converted : bool;
  encoded : bool;
  merged : bool
}.

(** Modelled from the spec: the identity of a job is its source path,
    built from the three constructor arguments. *)
Definition movie_path (dir d f : string) : string :=
  (dir ++ d ++ "/" ++ f)%string.

(** Modelled from the spec: [Movie(dir, d, f)], a job descriptor whose
    four stage flags are all false. *)
Definition new_Movie (dir d f : string) : Movie :=
  mkMovie dir d f (movie_path dir d f) false false false false.

Definition flag (s : Stage) (m : Movie) : bool :=
  match s with
  | Extract => extracted m
  | Convert => converted m
  | Encode => encoded m
  | Merge => merged m
  end.

Definition set_flag (s : Stage) (m : Movie) : Movie :=
  match s with
  | Extract => mkMovie (root m) (subdir m) (fileName m) (path m)
                 true (converted m) (encoded m) (merged m)
  | Convert => mkMovie (root m) (subdir m) (fileName m) (path m)
                 (extracted m) true (encoded m) (merged m)
  | Encode => mkMovie (root m) (subdir m) (fileName m) (path m)
                 (extracted m) (converted m) true (merged m)
  | Merge => mkMovie (root m) (subdir m) (fileName m) (path m)
                 (extracted m) (converted m) (encoded m) true
  end.

(* ================================================================== *)
(** * Job discovery: [get_movies] *)

(** The directory tree as [os.listdir] sees it: the names inside a
    directory, or [None] where [os.listdir] raises [OSError] (the path
    is missing or is not a directory). *)
Definition FS : Type := string -> option (list string).

(** [list.remove(x)]: drop the first element equal to [x]. *)
Fixpoint list_remove (x : string) (l : list string) : list string :=
  match l with
  | [] => []
  | y :: l' => if String.eqb x y then l' else y :: list_remove x l'
  end.

(** Lines 230-234: the inner loop over the files of one subdirectory.
    [files] is not modified while it is walked. *)
Fixpoint scan_files (dir d : string) (files : list string) : list Movie :=
  match files with
  | [] => []
  | f :: files' =>
      if negb (str_in "--converted" f) && str_in ".mkv" f
      then new_Movie dir d f :: scan_files dir d files'
      else scan_files dir d files'
  end.

(** Lines 224-234: [for d in directories].  The list iterator keeps an
    index [i]; every turn fetches [directories[i]] if there is one and
    then advances, while the body may shorten [directories] itself.
    [fuel] bounds the number of turns; [get_movies_loop_fuel] shows that
    the length of the listing is always enough. *)
Fixpoint get_movies_loop (fs : FS) (dir : string) (fuel i : nat)
    (directories : list string) (movieList : list Movie)
    : result (list Movie) :=
  match fuel with
  | O => Ok movieList
  | S fuel' =>
      match nth_error directories i with
      | None => Ok movieList
      | Some d =>
          if negb (str_in "__" d)
          then get_movies_loop fs dir fuel' (S i)
                 (list_remove d directories) movieList
          else
            match fs (dir ++ "/" ++ d)%string with
            | None => Raise OSError
            | Some files =>
                get_movies_loop fs dir fuel' (S i) directories
                  (movieList ++ scan_files dir d files)
            end
      end
  end.

(** Lines 219-236. *)
Definition get_movies (fs : FS) (dir : string) : result (list Movie) :=
  match fs dir with
  | None => Raise OSError
  | Some directories =>
      get_movies_loop fs dir (List.length directories) 0 directories []
  end.

(* ================================================================== *)
(** * Merging the recovered registry with the discovered movies *)

(** The list without its element at index [i]. *)
Definition remove_at {A : Type} (i : nat) (l : list A) : list A :=
  firstn i l ++ skipn (S i) l.

(** Lines 277-281: [for raw in newMovies], for one [movie] of the
    recovered list whose path is [p].  [newMovies.remove(raw)] drops
    the first element equal to [raw]; [Movie] objects compare by
    identity and every object occurs once in [newMovies], so that is
    the element at the iterator's index, which has just been fetched.
    The iterator then advances past the element that took its place. *)
Fixpoint remove_matching_loop (p : string) (fuel i : nat)
    (newMovies : list Movie) : list Movie :=
  match fuel with
  | O => newMovies
  | S fuel' =>
      match nth_error newMovies i with
      | None => newMovies
      | Some raw =>
          if String.eqb p (path raw)
          then remove_matching_loop p fuel' (S i) (remove_at i newMovies)
          else remove_matching_loop p fuel' (S i) newMovies
      end
  end.

(** Lines 276-281: the outer loop, [for movie in movies]. *)
Definition remove_known (movies newMovies : list Movie) : list Movie :=
  fold_left
    (fun nm movie => remove_matching_loop (path movie) (List.length nm) 0 nm)
    movies newMovies.

(** Lines 276-287: the registry after [movies.extend(newMovies)]. *)
Definition merge_movies (movies newMovies : list Movie) : list Movie :=
  movies ++ remove_known movies newMovies.

(* ================================================================== *)
(** * The process: checkpoint files, output, tools *)

(** What a checkpoint file holds: the complete pickle of a list of
    movies, or bytes on which [pickle.load] raises [e].  A file that
    [open(..., "wb")] has just truncated is empty, and [pickle.load]
    raises [EOFError] on it: [Damaged EOFError]. *)
Inductive Contents : Type :=
| Pickled (ms : list Movie)
| Damaged (e : Exn).

(** [./movies.p] and [./movies.p.bak]. *)
Inductive File : Type := Primary | Backup.

(** What a run does to the outside world, in the order it does it. *)
Inductive Event : Type :=
| Invoked (s : Stage) (p : string)
| Dumped (ms : list Movie)
| Copied (src dst : File).

(** The state of a run.  [primary] and [backup] are the two files
    ([None]: no such file); [primary_ro] and [backup_ro] say that
    opening the file for writing raises [IOError]; [stdout] holds the
    printed lines; [events] the effects so far; [ticks] is the number
    of effects the process still performs before it is terminated from
    outside ([None]: it is left alone). *)
Record Proc : Type := mkProc {
  primary : option Contents;
  backup : option Contents;
  primary_ro : bool;
  backup_ro : bool;
  stdout : list string;
  events : list Event;
  ticks : option nat
}.

(** A run ends normally, with an uncaught exception, or because the
    process was terminated. *)
Inductive Run (A : Type) : Type :=
| Done (a : A) (st : Proc)
| Failed (e : Exn) (st : Proc)
| Killed (st : Proc).
Arguments Done {A} a st.
Arguments Failed {A} e st.
Arguments Killed {A} st.

Definition M (A : Type) : Type := Proc -> Run A.

Definition ret {A : Type} (a : A) : M A := fun st => Done a st.

Definition bind {A B : Type} (c : M A) (k : A -> M B) : M B :=
  fun st =>
    match c st with
    | Done a st' => k a st'
    | Failed e st' => Failed e st'
    | Killed st' => Killed st'
    end.

Notation "x <- c ;; k" := (bind c (fun x => k))
  (at level 61, c at next level, right associativity).
Notation "c ;; k" := (bind c (fun _ => k))
  (at level 61, right associativity).

(** [try: c except (handled): h]. *)
Definition try_except {A : Type} (c : M A) (handled : Exn -> bool)
    (h : M A) : M A :=
  fun st =>
    match c st with
    | Failed e st' => if handled e then h st' else Failed e st'
    | r => r
    end.

Definition lift {A : Type} (r : result A) : M A :=
  fun st =>
    match r with
    | Ok a => Done a st
    | Raise e => Failed e st
    end.

(** One effect: the process may be terminated instead of performing it. *)
Definition tick : M unit :=
  fun st =>
    match ticks st with
    | None => Done tt st
    | Some O => Killed st
    | Some (S n) =>
        Done tt (mkProc (primary st) (backup st) (primary_ro st)
                   (backup_ro st) (stdout st) (events st) (Some n))
    end.

Definition read_file (f : File) (st : Proc) : option Contents :=
  match f with Primary => primary st | Backup => backup st end.

Definition read_only (f : File) (st : Proc) : bool :=
  match f with Primary => primary_ro st | Backup => backup_ro st end.

Definition write_file (f : File) (c : Contents) (st : Proc) : Proc :=
  match f with
  | Primary => mkProc (Some c) (backup st) (primary_ro st) (backup_ro st)
                 (stdout st) (events st) (ticks st)
  | Backup => mkProc (primary st) (Some c) (primary_ro st) (backup_ro st)
                (stdout st) (events st) (ticks st)
  end.

Definition log (e : Event) (st : Proc) : Proc :=
  mkProc (primary st) (backup st) (primary_ro st) (backup_ro st)
    (stdout st) (events st ++ [e]) (ticks st).

(** [print s]. *)
Definition print (s : string) : M unit :=
  fun st =>
    Done tt (mkProc (primary st) (backup st) (primary_ro st) (backup_ro st)
               (stdout st ++ [s]) (events st) (ticks st)).

(** [for entry in movies: print entry.path]. *)
Fixpoint print_paths (movies : list Movie) : M unit :=
  match movies with
  | [] => ret tt
  | entry :: movies' => print (path entry) ;; print_paths movies'
  end.

(** [open(f, "wb")]: raises [IOError] when the file cannot be opened
    for writing, and leaves it empty otherwise. *)
Definition open_wb (f : File) : M unit :=
  tick ;;
  fun st =>
    if read_only f st then Failed IOError st
    else Done tt (write_file f (Damaged EOFError) st).

(** [with open("./movies.p", "wb") as f: pickle.dump(movies, f)].
    Between the two effects the file is there and empty. *)
Definition pickle_dump (movies : list Movie) : M unit :=
  open_wb Primary ;;
  tick ;;
  fun st => Done tt (log (Dumped movies) (write_file Primary (Pickled movies) st)).

(** [shutil.copyfile(src, dst)]: opens [src] for reading, then [dst]
    for writing, then copies the bytes. *)
Definition copyfile (src dst : File) : M unit :=
  fun st =>
    match read_file src st with
    | None => Failed IOError st
    | Some c =>
        (open_wb dst ;;
         tick ;;
         fun st' => Done tt (log (Copied src dst) (write_file dst c st'))) st
    end.

(** [with open("./movies.p", "rb") as f: movies = pickle.load(f)]. *)
Definition pickle_load : M (list Movie) :=
  fun st =>
    match primary st with
    | None => Failed IOError st
    | Some (Pickled ms) => Done ms st
    | Some (Damaged e) => Failed e st
    end.

(** What the script is run with: the working directory, the directory
    tree below it, and for each stage and movie whether the external
    tool behind the stage succeeds. *)
Record Env : Type := mkEnv {
  cwd : string;
  fs : FS;
  tool_ok : Stage -> Movie -> bool
}.

(** Modelled from the spec: the methods [extractTracks],
    [convertTracks] and [encodeMovie] of [Movie], which live in the
    module [tools]: each runs its external tool and, when the tool
    succeeds, sets the flag of its stage; when the tool fails the
    method raises and the flag stays as it was. *)
Definition run_tool (env : Env) (s : Stage) (movie : Movie) : M Movie :=
  tick ;;
  fun st =>
    let st' := log (Invoked s (path movie)) st in
    if tool_ok env s movie then Done (set_flag s movie) st'
    else Failed ToolError st'.

(* ================================================================== *)
(** * [main] *)

Definition is_IOError (e : Exn) : bool := Exn_eqb e IOError.

Definition is_IOError_or_EOFError (e : Exn) : bool :=
  Exn_eqb e IOError || Exn_eqb e EOFError.

(** Lines 253-256: the backup, if there is one, replaces the primary. *)
Definition restore_backup : M unit :=
  try_except (copyfile Backup Primary) is_IOError (ret tt).

(** Lines 261-266: reading the registry. *)
Definition load_movies : M (list Movie) :=
  try_except pickle_load is_IOError_or_EOFError
    (print "No existing movie in process found. Starting from scratch" ;;
     ret []).

(** Lines 253-266: the registry a run starts from. *)
Definition recover : M (list Movie) :=
  restore_backup ;; load_movies.

(** Lines 293-296: the registry is dumped and the dump copied. *)
Definition checkpoint (movies : list Movie) : M unit :=
  pickle_dump movies ;; copyfile Primary Backup.

(** Lines 298-303, 304-309 and 310-315: the three loops differ only in
    the flag they test and the method they call.  [movies] is not
    resized while it is walked; a method changes its movie in place, so
    the list that is dumped is [done], the changed movie, and [rest']. *)
Fixpoint stage_pass (env : Env) (s : Stage) (done rest : list Movie)
    : M (list Movie) :=
  match rest with
  | [] => ret done
  | movie :: rest' =>
      movie' <- (if negb (flag s movie)
                 then (m <- run_tool env s movie ;;
                       pickle_dump (done ++ m :: rest') ;;
                       ret m)
                 else ret movie) ;;
      copyfile Primary Backup ;;
      stage_pass env s (done ++ [movie']) rest'
  end.

(** Lines 316-319: the fourth loop. *)
Fixpoint merge_pass (rest : list Movie) : M unit :=
  match rest with
  | [] => ret tt
  | movie :: rest' =>
      (if negb (merged movie) then ret tt else ret tt) ;;
      merge_pass rest'
  end.

(** Lines 321-325. *)
Definition report (movies : list Movie) : M unit :=
  print "" ;;
  print "The following movies have been completed:" ;;
  print_paths movies ;;
  print "".

(** Lines 248-296: the registry of this run, recovered, extended by
    what discovery found, and written out once.  Reading
    [Ripmaster.ini] (lines 245-246) has no part in what follows and is
    left out. *)
Definition startup (env : Env) : M (list Movie) :=
  let root := (cwd env ++ "/toConvert/")%string in
  movies <- recover ;;
  print "" ;;
  print "Found the following movies in progress:" ;;
  print_paths movies ;;
  print "" ;;
  newMovies <- lift (get_movies (fs env) root) ;;
  let newMovies := remove_known movies newMovies in
  print "" ;;
  let movies := movies ++ newMovies in
  print "Total movie list after adding new movies:" ;;
  print_paths movies ;;
  checkpoint movies ;;
  ret movies.

(** Lines 298-319: the four loops, one after the other. *)
Definition run_stages (env : Env) (movies : list Movie) : M (list Movie) :=
  movies <- stage_pass env Extract [] movies ;;
  movies <- stage_pass env Convert [] movies ;;
  movies <- stage_pass env Encode [] movies ;;
  merge_pass movies ;;
  ret movies.

(** Lines 242-325. *)
Definition main (env : Env) : M (list Movie) :=
  movies <- startup env ;;
  movies <- run_stages env movies ;;
  report movies ;;
  ret movies.

(** A new process on the disk another one has left behind. *)
Definition restart (k : option nat) (st : Proc) : Proc :=
  mkProc (primary st) (backup st) (primary_ro st) (backup_ro st) [] [] k.

(** The end state of a run, however it ended. *)
Definition final {A : Type} (r : Run A) : Proc :=
  match r with
  | Done _ st => st
  | Failed _ st => st
  | Killed st => st
  end.

(* ================================================================== *)
(** * A closed form of the inner merge loop *)

(** What [remove_matching_loop] leaves of the part of the list the
    iterator has not reached yet: an element with path [p] is dropped,
    and the element after it is kept without being looked at. *)
Fixpoint skip_scan (p : string) (rest : list Movie) : list Movie :=
  match rest with
  | [] => []
  | raw :: rest' =>
      if String.eqb p (path raw)
      then match rest' with
           | [] => []
           | nxt :: rest'' => nxt :: skip_scan p rest''
           end
      else raw :: skip_scan p rest'
  end.

(** The candidates whose path no recovered movie has. *)
Definition unknown_to (movies : list Movie) (raw : Movie) : bool :=
  negb (existsb (fun movie => String.eqb (path movie) (path raw)) movies).

(* ================================================================== *)
(** * What a pass does to a movie and to the log *)

(** A movie after the pass of stage [s] has gone over it with success. *)
Definition advance (s : Stage) (m : Movie) : Movie :=
  if flag s m then m else set_flag s m.

Definition is_Invoked (e : Event) : bool :=
  match e with Invoked _ _ => true | _ => false end.

(** The calls to external tools among the events, in order. *)
Definition invocations (evs : list Event) : list Event :=
  filter is_Invoked evs.

(** The tool calls the pass of stage [s] owes to a registry: one for
    each movie whose flag of that stage is false, in registry order. *)
Definition calls_of (s : Stage) (movies : list Movie) : list Event :=
  map (fun m => Invoked s (path m))
      (filter (fun m => negb (flag s m)) movies).

(** The tool calls of a whole run over a registry: all of extract,
    then all of convert, then all of encode; none for merge. *)
Definition schedule (movies : list Movie) : list Event :=
  calls_of Extract movies ++ calls_of Convert movies ++
  calls_of Encode movies.

(** The tool calls made between [st] and the end of the run [r] are
    an initial part of [owed], and all of it when [r] ends well. *)
Definition calls_within {A : Type} (owed : list Event) (st : Proc)
    (r : Run A) : Prop :=
  exists called pending,
    owed = called ++ pending /\
    invocations (events (final r)) = invocations (events st) ++ called /\
    (forall a st', r = Done a st' -> pending = []).

(** The events of one pass in which every tool succeeds and nothing
    goes wrong with the files. *)
Fixpoint pass_events (s : Stage) (done rest : list Movie) : list Event :=
  match rest with
  | [] => []
  | movie :: rest' =>
      (if negb (flag s movie)
       then [Invoked s (path movie);
             Dumped (done ++ set_flag s movie :: rest')]
       else []) ++
      Copied Primary Backup ::
      pass_events s (done ++ [advance s movie]) rest'
  end.

(** The lines of the closing report. *)
Definition report_lines (movies : list Movie) : list string :=
  "" :: "The following movies have been completed:" ::
  map path movies ++ [""].

(** What the specification calls fully completed: all four flags. *)
Definition spec_fully_completed (m : Movie) : bool :=
  extracted m && converted m && encoded m && merged m.

Definition unmerged (m : Movie) : Prop := merged m = false.

(** No checkpoint file holds a merged movie and no merge tool was
    ever called. *)
Definition never_merged (st : Proc) : Prop :=
  (forall ms, primary st = Some (Pickled ms) -> Forall unmerged ms) /\
  (forall ms, backup st = Some (Pickled ms) -> Forall unmerged ms) /\
  (forall p, ~ In (Invoked Merge p) (events st)).

(** [c] keeps the invariant [I] of the process state however it
    ends, and what it returns when it ends well satisfies [Q]. *)
Definition ensures {A : Type} (I : Proc -> Prop) (c : M A)
    (Q : A -> Prop) : Prop :=
  forall st, I st ->
    I (final (c st)) /\ forall a st', c st = Done a st' -> Q a.

(** The process state with more lines printed. *)
Definition printed (lines : list string) (st : Proc) : Proc :=
  mkProc (primary st) (backup st) (primary_ro st) (backup_ro st)
    (stdout st ++ lines) (events st) (ticks st).

(* ================================================================== *)
(** * Concrete inputs *)

Definition ex_cwd : string := "/home/rip".
Definition ex_root : string := "/home/rip/toConvert/".
Definition ex_akira_dir : string := "Akira__1080_hq_animation".
Definition ex_movie_dir : string := "Movie__720_tv".

(** A tree below [toConvert] with the given listing of the root. *)
Definition ex_fs (listing : list string) : FS :=
  fun p =>
    if String.eqb p ex_root then Some listing
    else if String.eqb p (ex_root ++ "/" ++ ex_akira_dir)%string
         then Some ["Akira.mkv"; "Akira--converted.mkv"; "cover.jpg"]
    else if String.eqb p (ex_root ++ "/" ++ ex_movie_dir)%string
         then Some ["Movie.mkv"]
    else None.

Definition ex_akira : Movie := new_Movie ex_root ex_akira_dir "Akira.mkv".
Definition ex_movie : Movie := new_Movie ex_root ex_movie_dir "Movie.mkv".

(** Every tool succeeds on every movie. *)
Definition ex_env (listing : list string) : Env :=
  mkEnv ex_cwd (ex_fs listing) (fun _ _ => true).

(** No checkpoint files yet, both writable, [k] effects to live. *)
Definition ex_fresh (k : option nat) : Proc :=
  mkProc None None false false [] [] k.

(** A primary file that is not a pickle, and no backup. *)
Definition ex_corrupt : Proc :=
  mkProc (Some (Damaged UnpicklingError)) None false false [] [] None.

(** No checkpoint files yet, and the backup cannot be written. *)
Definition ex_backup_ro : Proc :=
  mkProc None None false true [] [] None.

(** A registry whose only movie lacks nothing but the merge. *)
Definition ex_encoded : Movie :=
  set_flag Encode (set_flag Convert (set_flag Extract ex_akira)).

(** Both checkpoint files hold the registry [movies]. *)
Definition ex_checkpointed (movies : list Movie) : Proc :=
  mkProc (Some (Pickled movies)) (Some (Pickled movies)) false false
    [] [] None.

(* ================================================================== *)
(** * A closed form of the walk of [get_movies] *)

(** The entries of a listing that the loop of [get_movies] fetches and
    scans.  An entry without the token is taken out of the list, the
    entry behind it moves to its index, and the iterator goes on to the
    index after that. *)
Fixpoint visited (directories : list string) : list string :=
  match directories with
  | [] => []
  | d :: rest =>
      if str_in "__" d then d :: visited rest
      else match rest with
           | [] => []
           | _ :: rest' => visited rest'
           end
  end.

(** The candidates of the subdirectories [ds], scanned one after the
    other; the first that cannot be listed ends the scan. *)
Fixpoint scan_dirs (fs : FS) (dir : string) (ds : list string)
    : result (list Movie) :=
  match ds with
  | [] => Ok []
  | d :: ds' =>
      match fs (dir ++ "/" ++ d)%string with
      | None => Raise OSError
      | Some files =>
          match scan_dirs fs dir ds' with
          | Ok ms => Ok (scan_files dir d files ++ ms)
          | Raise e => Raise e
          end
      end
  end.

(** A file of a scanned subdirectory that becomes a candidate. *)
Definition qualifies (f : string) : bool :=
  negb (str_in "--converted" f) && str_in ".mkv" f.

(** A movie as the constructor leaves it. *)
Definition untouched (m : Movie) : Prop :=
  extracted m = false /\ converted m = false /\
  encoded m = false /\ merged m = false.

(* ================================================================== *)
(** * What a run works at *)

Definition is_Copied (e : Event) : bool :=
  match e with Copied _ _ => true | _ => false end.

(** The tool calls and the dumps among the events, in order: all that
    is not the copying of one checkpoint file to the other. *)
Definition work (evs : list Event) : list Event :=
  filter (fun e => negb (is_Copied e)) evs.

(** A movie that the three passes have nothing left to do for. *)
Definition encoded_through (m : Movie) : Prop :=
  extracted m = true /\ converted m = true /\ encoded m = true.

(** The run has not ended well. *)
Definition cut_short {A : Type} (r : Run A) : Prop :=
  (exists e st', r = Failed e st') \/ (exists st', r = Killed st').

(** The tools of stage [s] fail on every movie, all others succeed. *)
Definition ex_env_failing (s : Stage) (listing : list string) : Env :=
  mkEnv ex_cwd (ex_fs listing)
    (fun s' _ =>
       match s, s' with
       | Extract, Extract | Convert, Convert
       | Encode, Encode | Merge, Merge => false
       | _, _ => true
       end).

(* ================================================================== *)
(** * One entry per path *)

(** A name as a directory listing gives it: without a separator. *)
Definition no_slash (d : string) : Prop := str_in "/" d = false.

(** What [os.listdir] gives for the root and for the subdirectories of
    the root: no name twice, and no separator in a name of the root. *)
Definition tidy_tree (fs : FS) (dir : string) : Prop :=
  forall directories,
    fs dir = Some directories ->
    NoDup directories /\ Forall no_slash directories /\
    forall d files,
      In d directories -> fs (dir ++ "/" ++ d)%string = Some files ->
      NoDup files.

Definition one_per_path (ms : list Movie) : Prop := NoDup (map path ms).

(** Every registry a checkpoint file holds satisfies [P]. *)
Definition files_hold (P : list Movie -> Prop) (st : Proc) : Prop :=
  (forall ms, primary st = Some (Pickled ms) -> P ms) /\
  (forall ms, backup st = Some (Pickled ms) -> P ms).

(* ================================================================== *)
(** * A run that finds its work done *)

(** From every state that satisfies [I], [c] ends well, in a state
    that satisfies [I], with a result that satisfies [Q]. *)
Definition runs {A : Type} (I : Proc -> Prop) (c : M A)
    (Q : A -> Prop) : Prop :=
  forall st, I st -> exists a st', c st = Done a st' /\ I st' /\ Q a.

(** Nobody terminates the process, both checkpoint files can be
    written and hold the registry [ms], and no tool has been called. *)
Definition settled (ms : list Movie) (st : Proc) : Prop :=
  ticks st = None /\ primary_ro st = false /\ backup_ro st = false /\
  primary st = Some (Pickled ms) /\ backup st = Some (Pickled ms) /\
  invocations (events st) = [].

Definition ex_encoded_movie : Movie :=
  set_flag Encode (set_flag Convert (set_flag Extract ex_movie)).

(* ================================================================== *)
(** * Never without a registry *)

(** A checkpoint file that is there and holds a complete pickle. *)
Definition whole (c : option Contents) : Prop :=
  exists ms, c = Some (Pickled ms).

(** A property of the two checkpoint files. *)
Definition on_files (R : option Contents -> option Contents -> Prop)
    (st : Proc) : Prop :=
  R (primary st) (backup st).

Definition some_whole : Proc -> Prop :=
  on_files (fun p b => whole p \/ whole b).

Definition backup_whole : Proc -> Prop := on_files (fun _ b => whole b).

Definition both_whole : Proc -> Prop :=
  on_files (fun p b => whole p /\ whole b).

(** Started where [J] holds, [c] ends where [I] holds, however it
    ends, and where [J'] holds when it ends well. *)
Definition crash_safe {A : Type} (I J : Proc -> Prop) (c : M A)
    (J' : Proc -> Prop) : Prop :=
  forall st, J st ->
    I (final (c st)) /\ forall a st', c st = Done a st' -> J' st'.

(** The process is terminated after [k] effects, and the backup
    cannot be written. *)
Definition ex_hostile (k : nat) : Proc :=
  mkProc (Some (Damaged EOFError)) (Some (Pickled [ex_akira]))
    false true [] [] (Some k).

(* ================================================================== *)
(** * Discovery *)

(** Closes a conjunction of closed equations by evaluation, one
    conjunct after the other. *)
Ltac conj_compute :=
  repeat match goal with
         | |- _ /\ _ => split
         end;
  vm_compute; reflexivity.

Lemma list_remove_length (x : string) (l : list string) :
  List.length (list_remove x l) <= List.length l.
Proof.
  induction l as [|y l IH]; simpl.
  - lia.
  - destruct (String.eqb x y); simpl; lia.
Qed.

(** The walk over the listing ends by running off the list, never by
    running out of fuel: any two amounts of fuel that cover what is
    left of the listing give the same result. *)
Lemma get_movies_loop_fuel (fs0 : FS) (dir : string) :
  forall fuel1 fuel2 i directories movieList,
    List.length directories - i <= fuel1 ->
    List.length directories - i <= fuel2 ->
    get_movies_loop fs0 dir fuel1 i directories movieList =
    get_movies_loop fs0 dir fuel2 i directories movieList.
Proof.
  induction fuel1 as [|fuel1 IH]; intros fuel2 i l acc H1 H2.
  - assert (Hnone : nth_error l i = None) by (apply nth_error_None; lia).
    destruct fuel2; simpl; [reflexivity | now rewrite Hnone].
  - destruct fuel2 as [|fuel2].
    + assert (Hnone : nth_error l i = None) by (apply nth_error_None; lia).
      simpl. now rewrite Hnone.
    + simpl. destruct (nth_error l i) as [d|] eqn:Hd; [|reflexivity].
      assert (Hi : i < List.length l)
        by (apply nth_error_Some; congruence).
      destruct (negb (str_in "__" d)).
      * pose proof (list_remove_length d l).
        apply IH; lia.
      * match goal with |- context [fs0 ?x] => destruct (fs0 x) end;
          [|reflexivity].
        apply IH; lia.
Qed.

Lemma scan_files_In (dir d : string) (files : list string) (m : Movie) :
  In m (scan_files dir d files) <->
  exists f, m = new_Movie dir d f /\ In f files /\
            str_in ".mkv" f = true /\ str_in "--converted" f = false.
Proof.
  induction files as [|f0 files IH]; simpl.
  - split; [tauto | intros (f & _ & [] & _)].
  - destruct (str_in "--converted" f0) eqn:Hc, (str_in ".mkv" f0) eqn:Hm;
      simpl; rewrite ?IH; (split;
        [ intros H; try (destruct H as [H | H]; [exists f0; subst; tauto|]);
          destruct H as (f & ? & ? & ? & ?); exists f; tauto
        | intros (f & Hf & [-> | Hin] & H3 & H4);
          try congruence; try (now left);
          try (right; exists f; tauto); exists f; tauto ]).
Qed.

Lemma get_movies_loop_Forall (P : Movie -> Prop) (fs0 : FS) (dir : string)
    (HP : forall d f, str_in ".mkv" f = true ->
                      str_in "--converted" f = false ->
                      P (new_Movie dir d f)) :
  forall fuel i directories movieList ms,
    Forall P movieList ->
    get_movies_loop fs0 dir fuel i directories movieList = Ok ms ->
    Forall P ms.
Proof.
  induction fuel as [|fuel IH]; intros i l acc ms Hacc Hrun; simpl in Hrun.
  - now inversion Hrun; subst.
  - destruct (nth_error l i) as [d|]; [|now inversion Hrun; subst].
    destruct (negb (str_in "__" d)).
    + eapply IH; eauto.
    + match type of Hrun with context [fs0 ?x] =>
        destruct (fs0 x) as [files|] end; [|discriminate].
      eapply IH; [|exact Hrun].
      apply Forall_app; split; [assumption|].
      apply Forall_forall. intros m Hm.
      apply scan_files_In in Hm. destruct Hm as (f & -> & _ & H1 & H2).
      now apply HP.
Qed.

(** C3.  A subdirectory without the token is removed from the very list
    the loop is walking, so the entry after it is never fetched: the
    listing [NoInstructions, Akira__1080_hq_animation] yields no
    candidate although the second directory carries the token and holds
    a qualifying file, while the same two entries in the other order
    yield that file's candidate. *)
Theorem get_movies_skips_entry_after_removal :
  str_in "__" ex_akira_dir = true /\
  ex_fs ["NoInstructions"; ex_akira_dir] (ex_root ++ "/" ++ ex_akira_dir)%string
    = Some ["Akira.mkv"; "Akira--converted.mkv"; "cover.jpg"] /\
  scan_files ex_root ex_akira_dir
    ["Akira.mkv"; "Akira--converted.mkv"; "cover.jpg"] = [ex_akira] /\
  get_movies (ex_fs ["NoInstructions"; ex_akira_dir]) ex_root = Ok [] /\
  get_movies (ex_fs [ex_akira_dir; "NoInstructions"]) ex_root = Ok [ex_akira].
Proof. conj_compute. Qed.




(* ================================================================== *)
(** * Merge *)

Lemma remove_at_middle {A : Type} (done : list A) (x : A) (rest : list A) :
  remove_at (List.length done) (done ++ x :: rest) = done ++ rest.
Proof.
  unfold remove_at.
  rewrite firstn_app, Nat.sub_diag, firstn_all.
  cbn [firstn]. rewrite app_nil_r.
  change (S (List.length done)) with (1 + List.length done).
  rewrite <- skipn_skipn.
  rewrite skipn_app, Nat.sub_diag, skipn_all. reflexivity.
Qed.

Lemma nth_error_middle {A : Type} (done : list A) (x : A) (rest : list A) :
  nth_error (done ++ x :: rest) (List.length done) = Some x.
Proof.
  rewrite nth_error_app2 by lia. now rewrite Nat.sub_diag.
Qed.

(** The walk with the index written out leaves the part already passed
    as it is and does to the rest what [skip_scan] says, as soon as the
    fuel covers the rest. *)
Lemma remove_matching_loop_scan (p : string) :
  forall fuel done rest,
    List.length rest <= fuel ->
    remove_matching_loop p fuel (List.length done) (done ++ rest) =
    done ++ skip_scan p rest.
Proof.
  induction fuel as [|fuel IH]; intros done rest Hfuel.
  - destruct rest; simpl in Hfuel; [reflexivity | lia].
  - destruct rest as [|raw rest'].
    + cbn [remove_matching_loop skip_scan]. rewrite app_nil_r.
      assert (H : nth_error done (List.length done) = None)
        by (apply nth_error_None; lia).
      now rewrite H.
    + cbn [remove_matching_loop skip_scan].
      rewrite nth_error_middle. simpl in Hfuel.
      destruct (String.eqb p (path raw)).
      * rewrite remove_at_middle.
        destruct rest' as [|nxt rest''].
        -- rewrite app_nil_r.
           destruct fuel; cbn [remove_matching_loop]; [reflexivity|].
           assert (H : nth_error done (S (List.length done)) = None)
             by (apply nth_error_None; lia).
           now rewrite H.
        -- replace (done ++ nxt :: rest'') with ((done ++ [nxt]) ++ rest'')
             by (rewrite <- app_assoc; reflexivity).
           replace (S (List.length done)) with (List.length (done ++ [nxt]))
             by (rewrite length_app; simpl; lia).
           rewrite IH by (simpl in Hfuel; lia).
           rewrite <- app_assoc. reflexivity.
      * replace (done ++ raw :: rest') with ((done ++ [raw]) ++ rest')
          by (rewrite <- app_assoc; reflexivity).
        replace (S (List.length done)) with (List.length (done ++ [raw]))
          by (rewrite length_app; simpl; lia).
        rewrite IH by lia.
        rewrite <- app_assoc. reflexivity.
Qed.

Lemma skip_scan_absent (p : string) (l : list Movie) :
  ~ In p (map path l) -> skip_scan p l = l.
Proof.
  induction l as [|raw l IH]; intros Hp; [reflexivity|].
  cbn [skip_scan]. destruct (String.eqb_spec p (path raw)) as [->|_].
  - exfalso. apply Hp. now left.
  - rewrite IH; [reflexivity|]. intros H. apply Hp. now right.
Qed.

Lemma filter_absent (p : string) (l : list Movie) :
  ~ In p (map path l) ->
  filter (fun raw => negb (String.eqb p (path raw))) l = l.
Proof.
  induction l as [|raw l IH]; intros Hp; [reflexivity|].
  simpl. destruct (String.eqb_spec p (path raw)) as [->|_].
  - exfalso. apply Hp. now left.
  - simpl. rewrite IH; [reflexivity|]. intros H. apply Hp. now right.
Qed.

(** On candidates with pairwise different paths the walk is a filter. *)
Lemma skip_scan_filter (p : string) (l : list Movie) :
  NoDup (map path l) ->
  skip_scan p l = filter (fun raw => negb (String.eqb p (path raw))) l.
Proof.
  induction l as [|raw l IH]; intros Hnd; [reflexivity|].
  simpl in Hnd. apply NoDup_cons_iff in Hnd. destruct Hnd as [Hnotin Hnd].
  cbn [skip_scan filter].
  destruct (String.eqb_spec p (path raw)) as [->|_]; simpl.
  - rewrite filter_absent by assumption.
    destruct l as [|nxt l']; [reflexivity|].
    rewrite skip_scan_absent; [reflexivity|].
    intros H. apply Hnotin. now right.
  - now rewrite IH.
Qed.

Lemma NoDup_map_filter (f : Movie -> bool) (l : list Movie) :
  NoDup (map path l) -> NoDup (map path (filter f l)).
Proof.
  induction l as [|m l IH]; intros Hnd; [constructor|].
  simpl in Hnd. apply NoDup_cons_iff in Hnd. destruct Hnd as [Hnotin Hnd].
  simpl. destruct (f m); [|now apply IH].
  simpl. constructor; [|now apply IH].
  intros H. apply Hnotin. apply in_map_iff in H.
  destruct H as (x & Hx & Hin). apply filter_In in Hin.
  apply in_map_iff. exists x. tauto.
Qed.

Lemma unknown_to_spec (movies : list Movie) (raw : Movie) :
  unknown_to movies raw = true <-> ~ In (path raw) (map path movies).
Proof.
  unfold unknown_to. rewrite negb_true_iff, <- not_true_iff_false.
  rewrite existsb_exists. split; intros H C; apply H.
  - apply in_map_iff in C. destruct C as (m & Hm & Hin).
    exists m. split; [assumption|]. now apply String.eqb_eq.
  - destruct C as (m & Hin & Hm). apply String.eqb_eq in Hm.
    apply in_map_iff. exists m. tauto.
Qed.

(** Lines 276-281 on candidates with pairwise different paths: what is
    left of [newMovies] are the candidates no recovered movie shares its
    path with, in their order. *)
Lemma remove_known_filter :
  forall movies newMovies,
    NoDup (map path newMovies) ->
    remove_known movies newMovies = filter (unknown_to movies) newMovies.
Proof.
  unfold remove_known.
  induction movies as [|movie movies IH]; intros nm Hnd.
  - simpl. symmetry. apply forallb_filter_id.
    apply forallb_forall. reflexivity.
  - cbn [fold_left].
    pose proof (remove_matching_loop_scan (path movie) (List.length nm) [] nm
                  (le_n _)) as Hscan.
    simpl in Hscan. rewrite Hscan, skip_scan_filter by assumption.
    rewrite IH by (now apply NoDup_map_filter).
    clear. induction nm as [|raw nm IHnm]; [reflexivity|].
    unfold unknown_to in *. simpl.
    destruct (String.eqb (path movie) (path raw)); simpl;
      [assumption|].
    destruct (existsb _ movies); simpl; now rewrite IHnm.
Qed.

Lemma NoDup_map_eq (l : list Movie) (x y : Movie) :
  NoDup (map path l) -> In x l -> In y l -> path x = path y -> x = y.
Proof.
  induction l as [|m l IH]; intros Hnd Hx Hy Hxy; [contradiction|].
  simpl in Hnd. apply NoDup_cons_iff in Hnd. destruct Hnd as [Hnotin Hnd].
  destruct Hx as [-> | Hx], Hy as [-> | Hy].
  - reflexivity.
  - exfalso. apply Hnotin. rewrite Hxy. now apply in_map.
  - exfalso. apply Hnotin. rewrite <- Hxy. now apply in_map.
  - now apply IH.
Qed.

Lemma NoDup_paths_app (l1 l2 : list Movie) :
  NoDup (map path l1) -> NoDup (map path l2) ->
  (forall m, In m l2 -> ~ In (path m) (map path l1)) ->
  NoDup (map path (l1 ++ l2)).
Proof.
  induction l1 as [|m l1 IH]; intros H1 H2 Hsep; [assumption|].
  simpl in H1. apply NoDup_cons_iff in H1. destruct H1 as [Hnotin H1].
  simpl. constructor.
  - rewrite map_app, in_app_iff. intros [H | H]; [contradiction|].
    apply in_map_iff in H. destruct H as (x & Hx & Hin).
    apply (Hsep x Hin). left. congruence.
  - apply IH; try assumption.
    intros x Hin H. apply (Hsep x Hin). now right.
Qed.

(** C2.  For a recovered registry and a set of candidates, each with
    pairwise different paths: the merged list is the recovered movies
    followed by the candidates whose path no recovered movie has; it
    holds one entry per path of either list; an entry whose path is a
    recovered one is the recovered movie itself, flags included; every
    candidate with a new path is in it, and a candidate with a recovered
    path is dropped. *)
Theorem merge_movies_one_entry_per_path
    (movies newMovies : list Movie)
    (Hmovies : NoDup (map path movies))
    (HnewMovies : NoDup (map path newMovies)) :
  merge_movies movies newMovies
    = movies ++ filter (unknown_to movies) newMovies /\
  NoDup (map path (merge_movies movies newMovies)) /\
  (forall p, In p (map path (merge_movies movies newMovies)) <->
             In p (map path movies) \/ In p (map path newMovies)) /\
  (forall movie entry,
      In movie movies -> In entry (merge_movies movies newMovies) ->
      path entry = path movie -> entry = movie) /\
  (forall raw, In raw newMovies -> ~ In (path raw) (map path movies) ->
               In raw (merge_movies movies newMovies)) /\
  (forall raw, In raw newMovies -> In (path raw) (map path movies) ->
               ~ In raw (remove_known movies newMovies)).
Proof.
  unfold merge_movies. rewrite remove_known_filter by assumption.
  split; [reflexivity|]. split; [|split; [|split; [|split]]].
  - apply NoDup_paths_app; try assumption.
    + now apply NoDup_map_filter.
    + intros m Hm. apply filter_In in Hm. now apply unknown_to_spec.
  - intros p. rewrite map_app, in_app_iff. split.
    + intros [H | H]; [now left|]. right.
      apply in_map_iff in H. destruct H as (x & Hx & Hin).
      apply filter_In in Hin. apply in_map_iff. exists x. tauto.
    + intros [H | H]; [now left|].
      apply in_map_iff in H. destruct H as (x & Hx & Hin).
      destruct (unknown_to movies x) eqn:Hu.
      * right. apply in_map_iff. exists x. split; [assumption|].
        apply filter_In. tauto.
      * left. rewrite <- Hx.
        destruct (in_dec string_dec (path x) (map path movies)) as [Hi|Hn];
          [assumption|].
        apply unknown_to_spec in Hn. congruence.
  - intros movie entry Hmovie Hentry Hpath.
    apply in_app_iff in Hentry. destruct Hentry as [Hin | Hin].
    + now apply (NoDup_map_eq movies).
    + exfalso. apply filter_In in Hin. destruct Hin as [_ Hu].
      apply unknown_to_spec in Hu. apply Hu. rewrite Hpath.
      now apply in_map.
  - intros raw Hraw Hnew. apply in_app_iff. right.
    apply filter_In. split; [assumption|]. now apply unknown_to_spec.
  - intros raw Hraw Hknown Hin. apply filter_In in Hin.
    destruct Hin as [_ Hu]. apply unknown_to_spec in Hu. contradiction.
Qed.

Lemma merge_movies_one_entry_per_path_witness :
  merge_movies [set_flag Extract ex_akira] [ex_akira; ex_movie]
    = [set_flag Extract ex_akira] ++
      filter (unknown_to [set_flag Extract ex_akira]) [ex_akira; ex_movie].
Proof.
  apply (merge_movies_one_entry_per_path
           [set_flag Extract ex_akira] [ex_akira; ex_movie]).
  - repeat constructor. simpl. tauto.
  - repeat constructor; simpl; [|tauto].
    intros [H | []]. vm_compute in H. discriminate.
Defined.

(* ================================================================== *)
(** * The checkpoint files *)

(** Unfolds the monad down to the record of the state. *)
Ltac run_prim :=
  unfold recover, checkpoint, restore_backup, load_movies, pickle_dump,
    copyfile, open_wb, pickle_load, run_tool, try_except, bind, ret,
    tick, print, printed, log, write_file, read_file, read_only, lift,
    is_IOError, is_IOError_or_EOFError in *;
  simpl in *.

Lemma print_paths_printed (movies : list Movie) (st : Proc) :
  print_paths movies st = Done tt (printed (map path movies) st).
Proof.
  revert st. induction movies as [|m movies IH]; intros st.
  - destruct st; run_prim. now rewrite app_nil_r.
  - cbn [print_paths]. unfold bind at 1. unfold print at 1.
    rewrite IH. destruct st; run_prim. now rewrite <- app_assoc.
Qed.

(** C5, as stated, fails: a primary file on which [pickle.load]
    raises something other than [IOError] or [EOFError] is not read as
    an empty registry; the exception leaves [main]. *)
Lemma corrupt_checkpoint_aborts_run :
  primary ex_corrupt = Some (Damaged UnpicklingError) /\
  load_movies ex_corrupt = Failed UnpicklingError ex_corrupt /\
  main (ex_env [ex_akira_dir]) ex_corrupt = Failed UnpicklingError ex_corrupt.
Proof. conj_compute. Qed.

(** C5, amended.  When the primary file is absent, or [pickle.load]
    raises [IOError] or [EOFError] on it (an empty or cut-off file),
    reading it prints the notice and gives the empty registry, and the
    run goes on from there. *)
Theorem load_movies_missing_or_truncated (st : Proc)
    (Hprimary : primary st = None \/
                exists e, primary st = Some (Damaged e) /\
                          is_IOError_or_EOFError e = true) :
  load_movies st =
  Done [] (printed
             ["No existing movie in process found. Starting from scratch"]
             st).
Proof.
  destruct st as [p b pr br out evs k]. simpl in Hprimary.
  destruct Hprimary as [-> | (e & -> & He)].
  - reflexivity.
  - run_prim. rewrite He. reflexivity.
Qed.

Lemma load_movies_missing_or_truncated_witness :
  load_movies (ex_fresh None) =
  Done [] (printed
             ["No existing movie in process found. Starting from scratch"]
             (ex_fresh None)).
Proof.
  apply (load_movies_missing_or_truncated (ex_fresh None)).
  left. reflexivity.
Defined.

(** What recovery does while the backup is whole: the backup wins,
    whatever the primary holds. *)
Lemma recover_from_backup (movies : list Movie) (st : Proc) :
  backup st = Some (Pickled movies) -> primary_ro st = false ->
  ticks st = None ->
  recover st =
  Done movies (log (Copied Backup Primary)
                 (write_file Primary (Pickled movies) st)).
Proof.
  destruct st as [p b pr br out evs k]. simpl.
  intros -> -> ->. reflexivity.
Qed.

(** A process terminated inside the dump leaves the backup alone. *)
Lemma pickle_dump_killed_keeps_backup (movies : list Movie) (st st' : Proc) :
  pickle_dump movies st = Killed st' -> backup st' = backup st.
Proof.
  destruct st as [p b pr br out evs [[|[|k]]|]]; run_prim;
    destruct pr; intros H; inversion H; reflexivity.
Qed.

(** C1, at the failing input.  A first run over one movie is
    terminated in the extract pass, after the registry with the movie
    extracted has been dumped and while it is being copied to the
    backup.  An earlier backup copy had completed.  The backup is left
    empty, the next start copies it over the primary, and the registry
    that start recovers is empty: neither the registry of the last
    completed checkpoint nor the one being written. *)
Theorem kill_during_backup_copy_loses_registry :
  exists st1 st2,
    main (ex_env [ex_akira_dir]) (ex_fresh (Some 8)) = Killed st1 /\
    events st1 = [Dumped [ex_akira]; Copied Primary Backup;
                  Invoked Extract (path ex_akira);
                  Dumped [set_flag Extract ex_akira]] /\
    primary st1 = Some (Pickled [set_flag Extract ex_akira]) /\
    backup st1 = Some (Damaged EOFError) /\
    recover (restart None st1) = Done [] st2 /\
    primary st2 = Some (Damaged EOFError).
Proof.
  eexists. eexists. conj_compute.
Qed.

(** C6, as stated, fails: with a backup that cannot be written the
    first checkpoint of a run dumps the registry and then the copy
    raises [IOError], which nothing catches; the run ends there. *)
Lemma backup_copy_failure_aborts_run :
  exists st',
    main (ex_env [ex_akira_dir]) ex_backup_ro = Failed IOError st' /\
    primary st' = Some (Pickled [ex_akira]) /\
    backup st' = None /\
    events st' = [Dumped [ex_akira]].
Proof. eexists. conj_compute. Qed.

(* ================================================================== *)
(** * Stepping through [main] *)

Lemma bind_Done {A B : Type} (c : M A) (k : A -> M B) (st st' : Proc) (a : A) :
  c st = Done a st' -> bind c k st = k a st'.
Proof. unfold bind. now intros ->. Qed.

Lemma bind_Failed {A B : Type} (c : M A) (k : A -> M B) (st st' : Proc)
    (e : Exn) :
  c st = Failed e st' -> bind c k st = Failed e st'.
Proof. unfold bind. now intros ->. Qed.

Lemma bind_Killed {A B : Type} (c : M A) (k : A -> M B) (st st' : Proc) :
  c st = Killed st' -> bind c k st = Killed st'.
Proof. unfold bind. now intros ->. Qed.

Lemma bind_print {B : Type} (s : string) (k : unit -> M B) (st : Proc) :
  bind (print s) k st = k tt (printed [s] st).
Proof. reflexivity. Qed.

Lemma bind_print_paths {B : Type} (movies : list Movie) (k : unit -> M B)
    (st : Proc) :
  bind (print_paths movies) k st = k tt (printed (map path movies) st).
Proof. apply bind_Done, print_paths_printed. Qed.

Lemma printed_printed (l1 l2 : list string) (st : Proc) :
  printed l2 (printed l1 st) = printed (l1 ++ l2) st.
Proof. unfold printed. simpl. now rewrite app_assoc. Qed.

(** With nobody terminating the process, a file that cannot be opened
    for writing stops the dump before anything is written. *)
Lemma pickle_dump_read_only (movies : list Movie) (st : Proc) :
  ticks st = None -> primary_ro st = true ->
  pickle_dump movies st = Failed IOError st.
Proof.
  destruct st as [p b pr br out evs k]. simpl. intros -> ->. reflexivity.
Qed.

Lemma pickle_dump_written (movies : list Movie) (st : Proc) :
  ticks st = None -> primary_ro st = false ->
  pickle_dump movies st =
  Done tt (log (Dumped movies) (write_file Primary (Pickled movies) st)).
Proof.
  destruct st as [p b pr br out evs k]. simpl. intros -> ->. reflexivity.
Qed.

Lemma copy_to_backup_read_only (c : Contents) (st : Proc) :
  ticks st = None -> primary st = Some c -> backup_ro st = true ->
  copyfile Primary Backup st = Failed IOError st.
Proof.
  destruct st as [p b pr br out evs k]. simpl. intros -> -> ->. reflexivity.
Qed.

Lemma copy_to_backup_written (c : Contents) (st : Proc) :
  ticks st = None -> primary st = Some c -> backup_ro st = false ->
  copyfile Primary Backup st =
  Done tt (log (Copied Primary Backup) (write_file Backup c st)).
Proof.
  destruct st as [p b pr br out evs k]. simpl. intros -> -> ->. reflexivity.
Qed.

Lemma run_tool_ok (env : Env) (s : Stage) (movie : Movie) (st : Proc) :
  ticks st = None -> tool_ok env s movie = true ->
  run_tool env s movie st =
  Done (set_flag s movie) (log (Invoked s (path movie)) st).
Proof.
  destruct st as [p b pr br out evs k]. simpl. intros -> H.
  unfold run_tool, bind, tick. simpl. now rewrite H.
Qed.

(** Recovery never changes what can be written, and without a kill it
    is not killed. *)
Lemma recover_frame (st : Proc) :
  ticks st = None ->
  match recover st with
  | Done _ st' | Failed _ st' =>
      primary_ro st' = primary_ro st /\ backup_ro st' = backup_ro st /\
      ticks st' = None
  | Killed _ => False
  end.
Proof.
  destruct st as [p b pr br out evs k]. simpl. intros ->.
  destruct b as [[ms|e]|], p as [[ms'|e']|], pr; run_prim;
    repeat match goal with
           | |- context [Exn_eqb ?x ?y] => destruct x; simpl
           end; auto.
Qed.

Lemma startup_read_only (env : Env) (st : Proc) :
  ticks st = None -> primary_ro st = true \/ backup_ro st = true ->
  exists e st', startup env st = Failed e st'.
Proof.
  intros Hlive Hro. unfold startup.
  pose proof (recover_frame st Hlive) as Hf.
  destruct (recover st) as [movies st1|e st1|st1] eqn:Hrec;
    [|erewrite bind_Failed by eassumption; eauto|contradiction].
  destruct Hf as (Hpr & Hbr & Hk).
  erewrite bind_Done by eassumption.
  rewrite !bind_print, bind_print_paths, bind_print.
  destruct (get_movies (fs env) (cwd env ++ "/toConvert/")%string)
    as [newMovies|e] eqn:Hget.
  - erewrite bind_Done by (unfold lift; reflexivity).
    rewrite !bind_print, bind_print_paths.
    rewrite !printed_printed.
    match goal with
    | |- context [bind (checkpoint ?ms) ?k ?s] =>
        set (st2 := s); set (all := ms)
    end.
    assert (Hpr2 : primary_ro st2 = primary_ro st) by (subst st2; simpl; auto).
    assert (Hbr2 : backup_ro st2 = backup_ro st) by (subst st2; simpl; auto).
    assert (Hk2 : ticks st2 = None) by (subst st2; simpl; auto).
    destruct (primary_ro st2) eqn:Hp.
    + exists IOError, st2. apply bind_Failed. unfold checkpoint.
      apply bind_Failed. now apply pickle_dump_read_only.
    + destruct Hro as [Hro | Hro]; [congruence|].
      eexists. eexists. apply bind_Failed. unfold checkpoint.
      erewrite bind_Done by (now apply pickle_dump_written).
      eapply copy_to_backup_read_only; simpl; try reflexivity;
        try assumption.
      congruence.
  - eexists. eexists. apply bind_Failed. unfold lift. reflexivity.
Qed.

(** C6, amended.  With nobody terminating the process: a primary that
    cannot be written makes the checkpoint raise [IOError] before
    anything is written, and a backup that cannot be written makes it
    raise [IOError] after the primary has been written; the same holds
    for the dump and the copy that follow a tool call in a stage pass;
    and in either case [main] ends with an uncaught exception. *)
Theorem checkpoint_failures_are_fatal (movies : list Movie) (st : Proc)
    (Hlive : ticks st = None) :
  (primary_ro st = true -> checkpoint movies st = Failed IOError st) /\
  (primary_ro st = false -> backup_ro st = true ->
   checkpoint movies st =
   Failed IOError
     (log (Dumped movies) (write_file Primary (Pickled movies) st))) /\
  (forall env s done rest movie,
      flag s movie = false -> tool_ok env s movie = true ->
      (primary_ro st = true ->
       stage_pass env s done (movie :: rest) st =
       Failed IOError (log (Invoked s (path movie)) st)) /\
      (primary_ro st = false -> backup_ro st = true ->
       stage_pass env s done (movie :: rest) st =
       Failed IOError
         (log (Dumped (done ++ set_flag s movie :: rest))
            (write_file Primary
               (Pickled (done ++ set_flag s movie :: rest))
               (log (Invoked s (path movie)) st))))) /\
  (forall env, primary_ro st = true \/ backup_ro st = true ->
               exists e st', main env st = Failed e st').
Proof.
  split; [|split; [|split]].
  - intros Hp. unfold checkpoint. apply bind_Failed.
    now apply pickle_dump_read_only.
  - intros Hp Hb. unfold checkpoint.
    erewrite bind_Done by (now apply pickle_dump_written).
    eapply copy_to_backup_read_only; simpl; try reflexivity; assumption.
  - intros env s done rest movie Hflag Htool. split.
    + intros Hp. cbn [stage_pass]. rewrite Hflag. cbn [negb].
      apply bind_Failed.
      erewrite bind_Done by (now apply run_tool_ok).
      apply bind_Failed. now apply pickle_dump_read_only.
    + intros Hp Hb. cbn [stage_pass]. rewrite Hflag. cbn [negb].
      erewrite bind_Done.
      2:{ erewrite bind_Done by (now apply run_tool_ok).
          erewrite bind_Done by (now apply pickle_dump_written).
          reflexivity. }
      apply bind_Failed.
      eapply copy_to_backup_read_only; simpl; try reflexivity; assumption.
  - intros env Hro.
    destruct (startup_read_only env st Hlive Hro) as (e & st' & Hs).
    exists e, st'. unfold main. now apply bind_Failed.
Qed.

Lemma checkpoint_failures_are_fatal_witness :
  checkpoint [ex_akira] ex_backup_ro =
  Failed IOError
    (log (Dumped [ex_akira])
       (write_file Primary (Pickled [ex_akira]) ex_backup_ro)).
Proof.
  apply (proj1 (proj2 (checkpoint_failures_are_fatal
                         [ex_akira] ex_backup_ro eq_refl)));
    reflexivity.
Defined.

(* ================================================================== *)
(** * The stage passes: what they return *)

Lemma bind_Done_inv {A B : Type} (c : M A) (k : A -> M B) (st st' : Proc)
    (b : B) :
  bind c k st = Done b st' ->
  exists a st1, c st = Done a st1 /\ k a st1 = Done b st'.
Proof.
  unfold bind. destruct (c st) as [a st1| |]; try discriminate.
  intros H. now exists a, st1.
Qed.

Lemma run_tool_Done_inv (env : Env) (s : Stage) (movie m : Movie)
    (st st' : Proc) :
  run_tool env s movie st = Done m st' ->
  m = set_flag s movie /\ tool_ok env s movie = true.
Proof.
  unfold run_tool, bind, tick.
  destruct (ticks st) as [[|k]|]; try discriminate;
    destruct (tool_ok env s movie); try discriminate;
    intros H; inversion H; auto.
Qed.

Lemma advance_flag (s : Stage) (m : Movie) : flag s (advance s m) = true.
Proof.
  unfold advance. destruct (flag s m) eqn:H; [assumption|].
  destruct s; reflexivity.
Qed.

Lemma advance_keeps_flag (s s' : Stage) (m : Movie) :
  flag s' m = true -> flag s' (advance s m) = true.
Proof.
  unfold advance. destruct (flag s m); [trivial|].
  destruct s, s'; simpl; trivial.
Qed.

Lemma advance_path (s : Stage) (m : Movie) : path (advance s m) = path m.
Proof. unfold advance. destruct (flag s m), s; reflexivity. Qed.

(** One turn of a pass that ends well has gone on with the movie
    advanced. *)
Lemma stage_pass_cons_Done (env : Env) (s : Stage) (done rest : list Movie)
    (movie : Movie) (st st' : Proc) (l : list Movie) :
  stage_pass env s done (movie :: rest) st = Done l st' ->
  exists st1,
    stage_pass env s (done ++ [advance s movie]) rest st1 = Done l st'.
Proof.
  cbn [stage_pass]. intros H.
  apply bind_Done_inv in H. destruct H as (m & st1 & Hm & H).
  apply bind_Done_inv in H. destruct H as ([] & st2 & _ & H).
  exists st2. unfold advance.
  destruct (flag s movie); cbn [negb] in Hm.
  - unfold ret in Hm. inversion Hm; subst. assumption.
  - apply bind_Done_inv in Hm. destruct Hm as (m' & st3 & Htool & Hm).
    apply run_tool_Done_inv in Htool. destruct Htool as [-> _].
    apply bind_Done_inv in Hm. destruct Hm as ([] & st4 & _ & Hm).
    unfold ret in Hm. inversion Hm; subst. assumption.
Qed.

(** A pass that ends well returns the registry with every movie
    advanced by its stage. *)
Lemma stage_pass_result (env : Env) (s : Stage) :
  forall rest done st l st',
    stage_pass env s done rest st = Done l st' ->
    l = done ++ map (advance s) rest.
Proof.
  induction rest as [|movie rest IH]; intros done st l st' H.
  - cbn in H. inversion H. now rewrite app_nil_r.
  - apply stage_pass_cons_Done in H. destruct H as (st1 & H).
    apply IH in H. rewrite H, <- app_assoc. reflexivity.
Qed.

Lemma merge_pass_nothing (movies : list Movie) (st : Proc) :
  merge_pass movies st = Done tt st.
Proof.
  induction movies as [|movie movies IH]; [reflexivity|].
  cbn [merge_pass]. destruct (negb (merged movie)); exact IH.
Qed.

Lemma report_printed (movies : list Movie) (st : Proc) :
  report movies st = Done tt (printed (report_lines movies) st).
Proof.
  unfold report. rewrite !bind_print, bind_print_paths.
  unfold print, report_lines. rewrite !printed_printed.
  destruct st; unfold printed; simpl.
  now rewrite <- !app_assoc.
Qed.

Lemma run_stages_result (env : Env) (movies l : list Movie) (st st' : Proc) :
  run_stages env movies st = Done l st' ->
  l = map (advance Encode) (map (advance Convert)
                              (map (advance Extract) movies)).
Proof.
  unfold run_stages. intros H.
  apply bind_Done_inv in H. destruct H as (l1 & st1 & H1 & H).
  apply bind_Done_inv in H. destruct H as (l2 & st2 & H2 & H).
  apply bind_Done_inv in H. destruct H as (l3 & st3 & H3 & H).
  apply bind_Done_inv in H. destruct H as ([] & st4 & _ & H).
  unfold ret in H. inversion H; subst.
  apply stage_pass_result in H1, H2, H3. simpl in H1, H2, H3.
  now subst.
Qed.

(** C9, as stated, fails: the report of a first run lists the movie,
    whose [merged] flag is false, so the movie is not fully completed
    in the specification's sense. *)
Lemma report_lists_movie_not_merged :
  exists st',
    main (ex_env [ex_akira_dir]) (ex_fresh None) = Done [ex_encoded] st' /\
    spec_fully_completed ex_encoded = false /\
    merged ex_encoded = false /\
    stdout st' =
      ["No existing movie in process found. Starting from scratch";
       ""; "Found the following movies in progress:"; ""; "";
       "Total movie list after adding new movies:"; path ex_akira;
       ""; "The following movies have been completed:"; path ex_akira;
       ""].
Proof. eexists. conj_compute. Qed.

(* ================================================================== *)
(** * The stage passes: what they do to the files and the log *)

(** A pass in which nothing goes wrong: every movie whose flag is
    false has its tool called, and the call is followed at once by the
    dump of the whole registry and the copy to the backup. *)
Lemma stage_pass_all_ok (env : Env) (s : Stage)
    (Hok : forall m, tool_ok env s m = true) :
  forall rest done st c,
    ticks st = None -> primary_ro st = false -> backup_ro st = false ->
    primary st = Some c ->
    exists st',
      stage_pass env s done rest st
        = Done (done ++ map (advance s) rest) st' /\
      events st' = events st ++ pass_events s done rest /\
      stdout st' = stdout st /\
      ticks st' = None /\ primary_ro st' = false /\
      backup_ro st' = false /\ exists c', primary st' = Some c'.
Proof.
  induction rest as [|movie rest IH]; intros done st c Hk Hp Hb Hc.
  - exists st. cbn. rewrite !app_nil_r. eauto 10.
  - cbn [stage_pass pass_events map]. unfold advance at 1 3.
    destruct (flag s movie) eqn:Hflag; cbn [negb].
    + erewrite bind_Done by reflexivity.
      erewrite bind_Done by (eapply copy_to_backup_written; eassumption).
      destruct (IH (done ++ [movie])
                  (log (Copied Primary Backup) (write_file Backup c st)) c)
        as (st' & Hrun & Hev & Hout & Hk' & Hp' & Hb' & Hc');
        try (destruct st; simpl in *; congruence).
      exists st'. rewrite Hrun, Hev, Hout.
      destruct st; simpl in *. rewrite <- !app_assoc. simpl. eauto 10.
    + erewrite bind_Done.
      2:{ erewrite bind_Done by (apply run_tool_ok; [assumption|apply Hok]).
          erewrite bind_Done
            by (apply pickle_dump_written;
                destruct st; simpl in *; assumption).
          reflexivity. }
      set (registry := done ++ set_flag s movie :: rest).
      set (st1 := log (Dumped registry)
                    (write_file Primary (Pickled registry)
                       (log (Invoked s (path movie)) st))).
      erewrite bind_Done
        by (apply (copy_to_backup_written (Pickled registry));
            subst st1; destruct st; simpl in *; congruence).
      destruct (IH (done ++ [set_flag s movie])
                  (log (Copied Primary Backup)
                     (write_file Backup (Pickled registry) st1))
                  (Pickled registry))
        as (st' & Hrun & Hev & Hout & Hk' & Hp' & Hb' & Hc');
        try (subst st1; destruct st; simpl in *; congruence).
      exists st'. rewrite Hrun, Hev, Hout.
      subst st1. destruct st; simpl in *.
      rewrite <- !app_assoc. simpl. eauto 10.
Qed.

(** C4, as stated, fails for the fourth stage: a movie whose [merged]
    flag is false goes through the stage runner, with a merge tool that
    would succeed, and comes out with the flag still false; nothing is
    dumped, and the three events are the copies of the first three
    loops. *)
Lemma merge_stage_sets_no_flag :
  exists st',
    tool_ok (ex_env []) Merge ex_encoded = true /\
    flag Merge ex_encoded = false /\
    run_stages (ex_env []) [ex_encoded] (ex_checkpointed [ex_encoded])
      = Done [ex_encoded] st' /\
    events st' = [Copied Primary Backup; Copied Primary Backup;
                  Copied Primary Backup] /\
    primary st' = Some (Pickled [ex_encoded]).
Proof. eexists. conj_compute. Qed.

(** C4, amended.  In each of the passes extract, convert and encode,
    with files that can be written and nobody terminating the process:
    when the pass reaches a movie whose flag is false and the tool
    succeeds, the flag is set, the whole registry (the movies already
    passed, this movie with its flag set, the movies to come) is dumped
    to the primary and copied to the backup, and only then does the
    pass go on with the next movie.  When all tools succeed the events
    of a run of the stage runner are those of the three passes, one
    after the other; the merge loop adds none. *)
Theorem stage_success_is_checkpointed_at_once (env : Env) (s : Stage)
    (done rest : list Movie) (movie : Movie) (st : Proc)
    (Hstage : s <> Merge)
    (Hlive : ticks st = None) (Hprimary : primary_ro st = false)
    (Hbackup : backup_ro st = false)
    (Hflag : flag s movie = false) (Htool : tool_ok env s movie = true) :
  flag s (set_flag s movie) = true /\
  stage_pass env s done (movie :: rest) st =
  stage_pass env s (done ++ [set_flag s movie]) rest
    (mkProc (Some (Pickled (done ++ set_flag s movie :: rest)))
            (Some (Pickled (done ++ set_flag s movie :: rest)))
            false false (stdout st)
            (events st ++ [Invoked s (path movie);
                           Dumped (done ++ set_flag s movie :: rest);
                           Copied Primary Backup])
            None) /\
  ((forall s' m, tool_ok env s' m = true) ->
   forall movies c, primary st = Some c ->
   exists st',
     run_stages env movies st =
       Done (map (advance Encode)
               (map (advance Convert) (map (advance Extract) movies))) st' /\
     events st' =
       events st ++
       pass_events Extract [] movies ++
       pass_events Convert [] (map (advance Extract) movies) ++
       pass_events Encode []
         (map (advance Convert) (map (advance Extract) movies))).
Proof.
  split; [destruct s; reflexivity|]. split.
  - cbn [stage_pass]. rewrite Hflag. cbn [negb].
    erewrite bind_Done.
    2:{ erewrite bind_Done by (now apply run_tool_ok).
        erewrite bind_Done
          by (apply pickle_dump_written; destruct st; simpl in *; assumption).
        reflexivity. }
    erewrite bind_Done
      by (apply (copy_to_backup_written
                   (Pickled (done ++ set_flag s movie :: rest)));
          destruct st; simpl in *; congruence).
    f_equal. destruct st; simpl in *. subst.
    unfold log, write_file. simpl. rewrite <- !app_assoc. reflexivity.
  - intros Hok movies c Hc. unfold run_stages.
    destruct (stage_pass_all_ok env Extract (Hok Extract) movies [] st c)
      as (st1 & H1 & Hev1 & _ & Hk1 & Hp1 & Hb1 & (c1 & Hc1));
      try assumption.
    erewrite bind_Done by exact H1. simpl app.
    destruct (stage_pass_all_ok env Convert (Hok Convert)
                (map (advance Extract) movies) [] st1 c1)
      as (st2 & H2 & Hev2 & _ & Hk2 & Hp2 & Hb2 & (c2 & Hc2));
      try assumption.
    erewrite bind_Done by exact H2. simpl app.
    destruct (stage_pass_all_ok env Encode (Hok Encode)
                (map (advance Convert) (map (advance Extract) movies))
                [] st2 c2)
      as (st3 & H3 & Hev3 & _ & Hk3 & Hp3 & Hb3 & (c3 & Hc3));
      try assumption.
    erewrite bind_Done by exact H3. simpl app.
    erewrite bind_Done by apply merge_pass_nothing.
    exists st3. split; [reflexivity|].
    rewrite Hev3, Hev2, Hev1, <- !app_assoc. reflexivity.
Qed.

Lemma stage_success_is_checkpointed_at_once_witness :
  flag Extract (set_flag Extract ex_akira) = true /\
  stage_pass (ex_env []) Extract [] [ex_akira; ex_movie] (ex_fresh None) =
  stage_pass (ex_env []) Extract [set_flag Extract ex_akira] [ex_movie]
    (mkProc (Some (Pickled [set_flag Extract ex_akira; ex_movie]))
            (Some (Pickled [set_flag Extract ex_akira; ex_movie]))
            false false []
            [Invoked Extract (path ex_akira);
             Dumped [set_flag Extract ex_akira; ex_movie];
             Copied Primary Backup]
            None).
Proof.
  pose proof (stage_success_is_checkpointed_at_once
                (ex_env []) Extract [] [ex_movie] ex_akira (ex_fresh None))
    as H.
  destruct H as (H1 & H2 & _); try reflexivity; [discriminate|].
  split; [exact H1 | exact H2].
Defined.

(* ================================================================== *)
(** * The order of the tool calls *)

Lemma invocations_app (a b : list Event) :
  invocations (a ++ b) = invocations a ++ invocations b.
Proof. apply filter_app. Qed.

(** Splits a conjunction of three. *)
Ltac split3 := split; [|split].

(** Either the first part of a sequence ends well and the rest runs
    from where it stopped, or the sequence ends where the first part
    did, and not well. *)
Lemma bind_cases {A B : Type} (c : M A) (k : A -> M B) (st : Proc) :
  (exists a st1, c st = Done a st1 /\ bind c k st = k a st1) \/
  (final (bind c k st) = final (c st) /\
   (forall a st1, c st <> Done a st1) /\
   (forall b st', bind c k st <> Done b st')).
Proof.
  unfold bind. destruct (c st) as [a st1|e st1|st1].
  - left. now exists a, st1.
  - right. split3; [reflexivity| |]; discriminate.
  - right. split3; [reflexivity| |]; discriminate.
Qed.

Lemma pickle_dump_quiet (movies : list Movie) (st : Proc) :
  invocations (events (final (pickle_dump movies st)))
    = invocations (events st).
Proof.
  destruct st as [p b pr br out evs [[|[|k]]|]]; destruct pr; run_prim;
    rewrite ?invocations_app; simpl; rewrite ?app_nil_r; reflexivity.
Qed.

Lemma copyfile_quiet (src dst : File) (st : Proc) :
  invocations (events (final (copyfile src dst st)))
    = invocations (events st).
Proof.
  destruct st as [p b pr br out evs [[|[|k]]|]];
    destruct src, dst, p, b, pr, br; run_prim;
    rewrite ?invocations_app; simpl; rewrite ?app_nil_r; reflexivity.
Qed.

Lemma calls_of_cons (s : Stage) (movie : Movie) (rest : list Movie) :
  calls_of s (movie :: rest) = calls_of s [movie] ++ calls_of s rest.
Proof.
  unfold calls_of. simpl. destruct (flag s movie); reflexivity.
Qed.

(** The tool is called at most once by its method. *)
Lemma run_tool_calls (env : Env) (s : Stage) (movie : Movie) (st : Proc) :
  exists called,
    invocations (events (final (run_tool env s movie st)))
      = invocations (events st) ++ called /\
    (called = [] \/ called = [Invoked s (path movie)]).
Proof.
  unfold run_tool, bind, tick.
  destruct (ticks st) as [[|k]|]; simpl;
    destruct (tool_ok env s movie); simpl;
    rewrite ?invocations_app; simpl.
  all: try (exists [Invoked s (path movie)]; split; auto; fail).
  all: exists []; rewrite app_nil_r; split; auto.
Qed.

(** The tool call of one turn of a pass, with the dump that follows
    it: the call is made at most once, and it has been made when the
    turn ends well. *)
Lemma stage_turn_calls (env : Env) (s : Stage) (done rest : list Movie)
    (movie : Movie) (st : Proc) :
  let turn :=
    (if negb (flag s movie)
     then (m <- run_tool env s movie ;;
           pickle_dump (done ++ m :: rest) ;;
           ret m)
     else ret movie) in
  exists called,
    invocations (events (final (turn st)))
      = invocations (events st) ++ called /\
    (called = [] \/ called = calls_of s [movie]) /\
    (forall m st', turn st = Done m st' ->
                   called = calls_of s [movie] /\ m = advance s movie).
Proof.
  intros turn. subst turn. unfold calls_of, advance. simpl.
  destruct (flag s movie); cbn [negb filter map].
  - exists []. rewrite app_nil_r. split3; auto.
    intros m st' H. inversion H. split; reflexivity.
  - destruct (bind_cases (run_tool env s movie)
                (fun m => pickle_dump (done ++ m :: rest) ;; ret m) st)
      as [(m & st1 & Htool & ->) | (Hfin & _ & Hnot)].
    + pose proof (run_tool_Done_inv _ _ _ _ _ _ Htool) as [-> Hok].
      assert (Hev : invocations (events st1)
                    = invocations (events st) ++ [Invoked s (path movie)]).
      { revert Htool. unfold run_tool, bind, tick.
        destruct (ticks st) as [[|k]|]; try discriminate;
          rewrite Hok; intros H; inversion H; simpl;
          now rewrite invocations_app. }
      exists [Invoked s (path movie)].
      destruct (bind_cases
                  (pickle_dump (done ++ set_flag s movie :: rest))
                  (fun _ => ret (set_flag s movie)) st1)
        as [([] & st2 & Hdump & ->) | (-> & _ & Hnot)].
      * pose proof (pickle_dump_quiet
                      (done ++ set_flag s movie :: rest) st1) as Hq.
        rewrite Hdump in Hq. simpl in Hq. simpl. rewrite Hq, Hev.
        split3; auto.
        intros m st' H. inversion H. split; reflexivity.
      * rewrite pickle_dump_quiet, Hev. split3; auto.
        intros m st' H. now apply Hnot in H.
    + destruct (run_tool_calls env s movie st) as (called & Hev & Hc).
      exists called. rewrite Hfin. split3; auto.
      intros m st' H. now apply Hnot in H.
Qed.

(** The calls of one pass, however it ends, are an initial part of
    the calls the pass owes to the registry, and all of them when the
    pass ends well. *)
Lemma stage_pass_calls (env : Env) (s : Stage) :
  forall rest done st,
  exists called pending,
    calls_of s rest = called ++ pending /\
    invocations (events (final (stage_pass env s done rest st)))
      = invocations (events st) ++ called /\
    (forall l st', stage_pass env s done rest st = Done l st' ->
                   pending = []).
Proof.
  induction rest as [|movie rest IH]; intros done st.
  - exists [], []. cbn. rewrite app_nil_r. auto.
  - rewrite calls_of_cons. cbn [stage_pass].
    destruct (stage_turn_calls env s done rest movie st)
      as (c0 & Hev0 & Hc0 & Hdone0). cbv zeta in Hev0, Hdone0.
    match goal with
    | |- context [bind ?turn ?k st] =>
        destruct (bind_cases turn k st)
          as [(m & st1 & Hturn & ->) | (-> & _ & Hnot)]
    end.
    + destruct (Hdone0 _ _ Hturn) as [-> ->].
      rewrite Hturn in Hev0. simpl in Hev0.
      destruct (bind_cases (copyfile Primary Backup)
                  (fun _ => stage_pass env s
                              (done ++ [advance s movie]) rest) st1)
        as [([] & st2 & Hcopy & ->) | (-> & _ & Hnot)].
      * destruct (IH (done ++ [advance s movie]) st2)
          as (called & pending & Hsplit & Hev & Hdone).
        pose proof (copyfile_quiet Primary Backup st1) as Hq.
        rewrite Hcopy in Hq. simpl in Hq.
        exists (calls_of s [movie] ++ called), pending.
        rewrite Hsplit, Hev, Hq, Hev0, <- !app_assoc. auto.
      * exists (calls_of s [movie]), (calls_of s rest).
        rewrite copyfile_quiet, Hev0. split3; auto.
        intros l st' H. now apply Hnot in H.
    + destruct Hc0 as [-> | ->].
      * exists [], (calls_of s [movie] ++ calls_of s rest).
        rewrite Hev0. split3; auto.
        intros l st' H. now apply Hnot in H.
      * exists (calls_of s [movie]), (calls_of s rest).
        rewrite Hev0. split3; auto.
        intros l st' H. now apply Hnot in H.
Qed.

Lemma advance_other_flag (s s' : Stage) (m : Movie) :
  s <> s' -> flag s' (advance s m) = flag s' m.
Proof.
  intros Hne. unfold advance. destruct (flag s m); [reflexivity|].
  destruct s, s'; try reflexivity; congruence.
Qed.

Lemma calls_of_advance (s s' : Stage) (movies : list Movie) :
  s <> s' -> calls_of s' (map (advance s) movies) = calls_of s' movies.
Proof.
  intros Hne. unfold calls_of.
  induction movies as [|m movies IH]; [reflexivity|].
  simpl. rewrite advance_other_flag by assumption.
  destruct (flag s' m); simpl; rewrite ?advance_path; now rewrite IH.
Qed.

Lemma stage_pass_calls_within (env : Env) (s : Stage)
    (done rest : list Movie) (st : Proc) :
  calls_within (calls_of s rest) st (stage_pass env s done rest st).
Proof. apply stage_pass_calls. Qed.

(** Calls owed by two parts of a run, one after the other. *)
Lemma calls_within_bind {A B : Type} (owed1 owed2 : list Event)
    (c : M A) (k : A -> M B) (st : Proc) :
  calls_within owed1 st (c st) ->
  (forall a st1, c st = Done a st1 -> calls_within owed2 st1 (k a st1)) ->
  calls_within (owed1 ++ owed2) st (bind c k st).
Proof.
  intros (called1 & pending1 & Hsplit1 & Hev1 & Hdone1) Hk.
  destruct (bind_cases c k st)
    as [(a & st1 & Hc & ->) | (Hfin & _ & Hnot)].
  - destruct (Hk a st1 Hc) as (called2 & pending2 & Hsplit2 & Hev2 & Hdone2).
    rewrite (Hdone1 _ _ Hc), app_nil_r in Hsplit1. subst called1.
    rewrite Hc in Hev1. simpl in Hev1.
    exists (owed1 ++ called2), pending2. split3.
    + now rewrite Hsplit2, app_assoc.
    + now rewrite Hev2, Hev1, app_assoc.
    + exact Hdone2.
  - exists called1, (pending1 ++ owed2). split3.
    + now rewrite Hsplit1, app_assoc.
    + now rewrite Hfin.
    + intros b st' H. now apply Hnot in H.
Qed.

(** C7, as stated, fails at the fourth stage: a run over one movie
    with no flag set ends well after the extract, convert and encode
    calls; the merge flag of the movie is false all along, and no merge
    operation is ever invoked for it. *)
Lemma unmerged_movie_gets_no_merge_call :
  exists movies st',
    run_stages (ex_env [ex_akira_dir]) [ex_akira] (ex_fresh None)
      = Done movies st' /\
    invocations (events st')
      = [Invoked Extract (path ex_akira); Invoked Convert (path ex_akira);
         Invoked Encode (path ex_akira)] /\
    map (flag Merge) [ex_akira] = [false] /\
    map (flag Merge) movies = [false].
Proof. eexists. eexists. conj_compute. Qed.

(** C7, amended.  The tool calls of the four loops follow the
    schedule of the registry they are given: the extract call of every
    movie whose extracted flag is false, in registry order, then the
    convert calls, then the encode calls, each pass deciding on the
    flags the registry had when the loops began; there is no merge
    call.  However the loops end, the calls made are an initial part of
    that schedule, and when they end well the calls made are the whole
    of it. *)
Theorem run_stages_calls_follow_schedule (env : Env) (movies : list Movie)
    (st : Proc) :
  exists called pending,
    schedule movies = called ++ pending /\
    invocations (events (final (run_stages env movies st)))
      = invocations (events st) ++ called /\
    (forall l st', run_stages env movies st = Done l st' -> pending = []).
Proof.
  change (calls_within (schedule movies) st (run_stages env movies st)).
  unfold schedule, run_stages.
  apply calls_within_bind; [apply stage_pass_calls_within|].
  intros l1 st1 H1. apply stage_pass_result in H1. simpl in H1. subst l1.
  rewrite <- (calls_of_advance Extract Convert movies) by discriminate.
  rewrite <- (calls_of_advance Extract Encode movies) by discriminate.
  apply calls_within_bind; [apply stage_pass_calls_within|].
  intros l2 st2 H2. apply stage_pass_result in H2. simpl in H2. subst l2.
  rewrite <- (calls_of_advance Convert Encode
                (map (advance Extract) movies)) by discriminate.
  rewrite <- (app_nil_r (calls_of Encode _)).
  apply calls_within_bind; [apply stage_pass_calls_within|].
  intros l3 st3 _. unfold bind. rewrite merge_pass_nothing.
  exists [], []. split3; [reflexivity| |auto].
  simpl. now rewrite app_nil_r.
Qed.

(* ================================================================== *)
(** * The merge flag *)

Lemma ensures_ret {A : Type} (I : Proc -> Prop) (Q : A -> Prop) (a : A) :
  Q a -> ensures I (ret a) Q.
Proof.
  intros Ha st Hst. split; [exact Hst|].
  intros a' st' H. inversion H. now subst.
Qed.

Lemma ensures_bind {A B : Type} (I : Proc -> Prop) (P : A -> Prop)
    (Q : B -> Prop) (c : M A) (k : A -> M B) :
  ensures I c P -> (forall a, P a -> ensures I (k a) Q) ->
  ensures I (bind c k) Q.
Proof.
  intros Hc Hk st Hst. destruct (Hc st Hst) as [Hfin Hret].
  destruct (bind_cases c k st)
    as [(a & st1 & Hrun & ->) | (-> & _ & Hnot)].
  - rewrite Hrun in Hfin. simpl in Hfin.
    apply (Hk a (Hret _ _ Hrun) st1 Hfin).
  - split; [exact Hfin|]. intros b st' H. now apply Hnot in H.
Qed.

Lemma ensures_weaken {A : Type} (I : Proc -> Prop) (P Q : A -> Prop)
    (c : M A) :
  ensures I c P -> (forall a, P a -> Q a) -> ensures I c Q.
Proof.
  intros Hc HPQ st Hst. destruct (Hc st Hst) as [Hfin Hret].
  split; [exact Hfin|]. intros a st' H. eapply HPQ, Hret, H.
Qed.

Lemma ensures_try_except {A : Type} (I : Proc -> Prop) (Q : A -> Prop)
    (c h : M A) (handled : Exn -> bool) :
  ensures I c Q -> ensures I h Q -> ensures I (try_except c handled h) Q.
Proof.
  intros Hc Hh st Hst. destruct (Hc st Hst) as [Hfin Hret].
  unfold try_except. destruct (c st) as [a st1|e st1|st1] eqn:Hrun.
  - split; [exact Hfin|]. intros a' st' H. eapply Hret, H.
  - simpl in Hfin. destruct (handled e).
    + apply Hh, Hfin.
    + split; [exact Hfin|]. discriminate.
  - split; [exact Hfin|]. discriminate.
Qed.

(** The invariant looks at the two files and at the log only. *)
Lemma never_merged_same (st st' : Proc) :
  primary st' = primary st -> backup st' = backup st ->
  events st' = events st -> never_merged st -> never_merged st'.
Proof.
  unfold never_merged. intros -> -> ->. trivial.
Qed.

Lemma never_merged_write (f : File) (c : Contents) (st : Proc) :
  (forall ms, c = Pickled ms -> Forall unmerged ms) ->
  never_merged st -> never_merged (write_file f c st).
Proof.
  intros Hc (Hp & Hb & He). destruct f; simpl; split3; simpl; auto;
    intros ms H; inversion H; auto.
Qed.

Lemma never_merged_log (e : Event) (st : Proc) :
  (forall p, e <> Invoked Merge p) ->
  never_merged st -> never_merged (log e st).
Proof.
  intros Hne (Hp & Hb & He). split3; simpl; auto.
  intros p Hin. apply in_app_or in Hin. destruct Hin as [Hin | [Hin | []]].
  - exact (He p Hin).
  - exact (Hne p Hin).
Qed.

Lemma never_merged_read (f : File) (ms : list Movie) (st : Proc) :
  never_merged st -> read_file f st = Some (Pickled ms) ->
  Forall unmerged ms.
Proof.
  intros (Hp & Hb & _). destruct f; simpl; auto.
Qed.

Lemma tick_never_merged : ensures never_merged tick (fun _ => True).
Proof.
  intros st Hst. split; [|trivial]. unfold tick.
  destruct (ticks st) as [[|k]|]; simpl; exact Hst.
Qed.

Lemma print_never_merged (s : string) :
  ensures never_merged (print s) (fun _ => True).
Proof.
  intros st Hst. split; [|trivial]. simpl.
  revert Hst. now apply never_merged_same.
Qed.

Lemma print_paths_never_merged (movies : list Movie) :
  ensures never_merged (print_paths movies) (fun _ => True).
Proof.
  intros st Hst. split; [|trivial]. rewrite print_paths_printed. simpl.
  revert Hst. now apply never_merged_same.
Qed.

Lemma open_wb_never_merged (f : File) :
  ensures never_merged (open_wb f) (fun _ => True).
Proof.
  unfold open_wb. eapply ensures_bind; [apply tick_never_merged|].
  intros _ _ st Hst. split; [|trivial].
  destruct (read_only f st); cbn [final]; [exact Hst|].
  apply never_merged_write; [discriminate | exact Hst].
Qed.

Lemma pickle_dump_never_merged (movies : list Movie) :
  Forall unmerged movies ->
  ensures never_merged (pickle_dump movies) (fun _ => True).
Proof.
  intros Hms. unfold pickle_dump.
  eapply ensures_bind; [apply open_wb_never_merged|]. intros _ _.
  eapply ensures_bind; [apply tick_never_merged|]. intros _ _.
  intros st Hst. split; [|trivial]. cbn [final].
  apply never_merged_log; [discriminate|].
  apply never_merged_write; [|exact Hst].
  intros ms H. inversion H. now subst.
Qed.

Lemma copyfile_never_merged (src dst : File) :
  ensures never_merged (copyfile src dst) (fun _ => True).
Proof.
  intros st Hst. unfold copyfile.
  destruct (read_file src st) as [c|] eqn:Hread;
    [|split; [exact Hst | trivial]].
  assert (Hc : forall ms, c = Pickled ms -> Forall unmerged ms).
  { intros ms ->. eapply never_merged_read; eauto. }
  clear Hread. revert st Hst.
  change (ensures never_merged
            (open_wb dst ;; tick ;;
             fun st' => Done tt (log (Copied src dst) (write_file dst c st')))
            (fun _ => True)).
  eapply ensures_bind; [apply open_wb_never_merged|]. intros _ _.
  eapply ensures_bind; [apply tick_never_merged|]. intros _ _.
  intros st Hst. split; [|trivial]. cbn [final].
  apply never_merged_log; [discriminate|].
  now apply never_merged_write.
Qed.

Lemma pickle_load_never_merged :
  ensures never_merged pickle_load (Forall unmerged).
Proof.
  intros st Hst. unfold pickle_load.
  destruct (primary st) as [[ms|e]|] eqn:Hp; simpl;
    (split; [exact Hst|]); try discriminate.
  intros a st' H. inversion H. subst.
  destruct Hst as (Hprim & _). auto.
Qed.

Lemma recover_never_merged :
  ensures never_merged recover (Forall unmerged).
Proof.
  unfold recover, restore_backup, load_movies.
  eapply ensures_bind.
  - apply ensures_try_except; [apply copyfile_never_merged|].
    now apply ensures_ret.
  - intros _ _. apply ensures_try_except; [apply pickle_load_never_merged|].
    eapply ensures_bind; [apply print_never_merged|].
    intros _ _. apply ensures_ret. constructor.
Qed.

Lemma checkpoint_never_merged (movies : list Movie) :
  Forall unmerged movies ->
  ensures never_merged (checkpoint movies) (fun _ => True).
Proof.
  intros Hms. unfold checkpoint.
  eapply ensures_bind; [now apply pickle_dump_never_merged|].
  intros _ _. apply copyfile_never_merged.
Qed.

Lemma set_flag_unmerged (s : Stage) (m : Movie) :
  s <> Merge -> unmerged m -> unmerged (set_flag s m).
Proof. unfold unmerged. destruct s; simpl; congruence. Qed.

Lemma run_tool_never_merged (env : Env) (s : Stage) (movie : Movie) :
  s <> Merge -> unmerged movie ->
  ensures never_merged (run_tool env s movie) unmerged.
Proof.
  intros Hs Hm. unfold run_tool.
  eapply ensures_bind; [apply tick_never_merged|]. intros _ _.
  intros st Hst.
  assert (Hlog : never_merged (log (Invoked s (path movie)) st)).
  { apply never_merged_log; [|exact Hst]. intros p H. congruence. }
  destruct (tool_ok env s movie); simpl; (split; [exact Hlog|]);
    try discriminate.
  intros a st' H. inversion H. now apply set_flag_unmerged.
Qed.

Lemma stage_pass_never_merged (env : Env) (s : Stage) :
  s <> Merge ->
  forall rest done,
    Forall unmerged done -> Forall unmerged rest ->
    ensures never_merged (stage_pass env s done rest) (Forall unmerged).
Proof.
  intros Hs. induction rest as [|movie rest IH]; intros done Hdone Hrest.
  - now apply ensures_ret.
  - inversion Hrest as [|? ? Hm Hrest']; subst. cbn [stage_pass].
    eapply ensures_bind with (P := unmerged).
    + destruct (negb (flag s movie)); [|now apply ensures_ret].
      eapply ensures_bind; [now apply run_tool_never_merged|].
      intros m Hm'.
      eapply ensures_bind; [|intros _ _; now apply ensures_ret].
      apply pickle_dump_never_merged.
      apply Forall_app; split; [exact Hdone|]. now constructor.
    + intros m Hm'.
      eapply ensures_bind; [apply copyfile_never_merged|]. intros _ _.
      apply IH; [|exact Hrest'].
      apply Forall_app; split; [exact Hdone|]. now constructor.
Qed.

Lemma run_stages_never_merged (env : Env) (movies : list Movie) :
  Forall unmerged movies ->
  ensures never_merged (run_stages env movies) (Forall unmerged).
Proof.
  intros Hms. unfold run_stages.
  eapply ensures_bind;
    [apply stage_pass_never_merged; [discriminate|constructor|exact Hms]|].
  intros l1 H1.
  eapply ensures_bind;
    [apply stage_pass_never_merged; [discriminate|constructor|exact H1]|].
  intros l2 H2.
  eapply ensures_bind;
    [apply stage_pass_never_merged; [discriminate|constructor|exact H2]|].
  intros l3 H3.
  eapply ensures_bind with (P := fun _ => True);
    [|intros _ _; now apply ensures_ret].
  intros st Hst. rewrite merge_pass_nothing. auto.
Qed.

(** What the two removal loops leave was in the list they began with. *)
Lemma remove_at_incl {A : Type} (i : nat) (l : list A) :
  incl (remove_at i l) l.
Proof.
  unfold remove_at. intros x Hin. apply in_app_or in Hin.
  destruct Hin as [Hin | Hin].
  - rewrite <- (firstn_skipn i l). apply in_or_app. now left.
  - rewrite <- (firstn_skipn (S i) l). apply in_or_app. now right.
Qed.

Lemma remove_matching_loop_incl (p : string) :
  forall fuel i newMovies,
    incl (remove_matching_loop p fuel i newMovies) newMovies.
Proof.
  induction fuel as [|fuel IH]; intros i l; simpl.
  - apply incl_refl.
  - destruct (nth_error l i) as [raw|]; [|apply incl_refl].
    destruct (String.eqb p (path raw)).
    + eapply incl_tran; [apply IH | apply remove_at_incl].
    + apply IH.
Qed.

Lemma remove_known_incl (movies : list Movie) :
  forall newMovies, incl (remove_known movies newMovies) newMovies.
Proof.
  unfold remove_known.
  induction movies as [|movie movies IH]; intros nm; simpl.
  - apply incl_refl.
  - eapply incl_tran; [apply IH | apply remove_matching_loop_incl].
Qed.

Lemma get_movies_unmerged (fs0 : FS) (dir : string) (ms : list Movie) :
  get_movies fs0 dir = Ok ms -> Forall unmerged ms.
Proof.
  unfold get_movies. destruct (fs0 dir) as [l|]; [|discriminate].
  apply get_movies_loop_Forall; [|constructor].
  intros d f _ _. reflexivity.
Qed.

Lemma startup_never_merged (env : Env) :
  ensures never_merged (startup env) (Forall unmerged).
Proof.
  unfold startup.
  eapply ensures_bind; [apply recover_never_merged|]. intros movies Hms.
  eapply ensures_bind; [apply print_never_merged|]. intros _ _.
  eapply ensures_bind; [apply print_never_merged|]. intros _ _.
  eapply ensures_bind; [apply print_paths_never_merged|]. intros _ _.
  eapply ensures_bind; [apply print_never_merged|]. intros _ _.
  eapply ensures_bind with (P := Forall unmerged).
  { intros st Hst. unfold lift.
    destruct (get_movies _ _) as [ms|e] eqn:Hget; simpl;
      (split; [exact Hst|]); try discriminate.
    intros a st' H. inversion H. subst.
    eapply get_movies_unmerged, Hget. }
  intros newMovies Hnew.
  assert (Hall : Forall unmerged (movies ++ remove_known movies newMovies)).
  { apply Forall_app; split; [exact Hms|].
    rewrite Forall_forall in *. intros m Hin.
    apply Hnew. eapply remove_known_incl, Hin. }
  eapply ensures_bind; [apply print_never_merged|]. intros _ _.
  eapply ensures_bind; [apply print_never_merged|]. intros _ _.
  eapply ensures_bind; [apply print_paths_never_merged|]. intros _ _.
  eapply ensures_bind; [now apply checkpoint_never_merged|]. intros _ _.
  now apply ensures_ret.
Qed.

Lemma main_never_merged (env : Env) :
  ensures never_merged (main env) (Forall unmerged).
Proof.
  unfold main.
  eapply ensures_bind; [apply startup_never_merged|]. intros movies Hms.
  eapply ensures_bind; [now apply run_stages_never_merged|].
  intros l Hl.
  eapply ensures_bind with (P := fun _ => True);
    [|intros _ _; now apply ensures_ret].
  intros st Hst. rewrite report_printed. simpl. split; [|trivial].
  revert Hst. now apply never_merged_same.
Qed.

(** C10.  The fourth loop returns with the process state it was given,
    so the four loops are the three passes, and between the encode pass
    and the end of the run nothing happens but the printing of the
    report.  No run ever sets a merged flag: when no checkpoint file
    holds a merged movie and no merge tool has been called, as on a
    disk without checkpoint files, this is still so when [main] ends,
    however it ends, and for the process started after it; and every
    movie of the registry a run ends with has its merged flag false. *)
Theorem merge_pass_changes_nothing :
  (forall movies st, merge_pass movies st = Done tt st) /\
  (forall env movies st,
      run_stages env movies st
      = (movies <- stage_pass env Extract [] movies ;;
         movies <- stage_pass env Convert [] movies ;;
         stage_pass env Encode [] movies) st) /\
  (forall movies st,
      (merge_pass movies ;; report movies) st
      = Done tt (printed (report_lines movies) st)) /\
  never_merged (ex_fresh None) /\
  (forall env st,
      never_merged st ->
      never_merged (final (main env st)) /\
      (forall k, never_merged (restart k (final (main env st)))) /\
      (forall movies st',
          main env st = Done movies st' -> Forall unmerged movies)).
Proof.
  split; [exact merge_pass_nothing|].
  split.
  { intros env movies st. unfold run_stages, bind.
    destruct (stage_pass env Extract [] movies st) as [l1 st1| |];
      [|reflexivity|reflexivity].
    destruct (stage_pass env Convert [] l1 st1) as [l2 st2| |];
      [|reflexivity|reflexivity].
    destruct (stage_pass env Encode [] l2 st2) as [l3 st3| |];
      [|reflexivity|reflexivity].
    now rewrite merge_pass_nothing. }
  split.
  { intros movies st. unfold bind at 1.
    rewrite merge_pass_nothing. apply report_printed. }
  split.
  { split3; simpl; [discriminate | discriminate | tauto]. }
  intros env st Hst. destruct (main_never_merged env st Hst) as [Hfin Hret].
  split3; [exact Hfin | | exact Hret].
  intros k. destruct Hfin as (Hp & Hb & _). split3; simpl; auto.
Qed.

Lemma merge_pass_changes_nothing_witness :
  never_merged
    (final (main (ex_env [ex_akira_dir; ex_movie_dir]) (ex_fresh None))) /\
  Forall unmerged
    (map (advance Encode)
       (map (advance Convert) (map (advance Extract) [ex_akira; ex_movie]))).
Proof.
  destruct merge_pass_changes_nothing as (_ & _ & _ & Hfresh & Hmain).
  destruct (Hmain (ex_env [ex_akira_dir; ex_movie_dir]) (ex_fresh None)
              Hfresh) as (Hfin & _ & Hret).
  split; [exact Hfin|].
  eapply Hret. vm_compute. reflexivity.
Defined.

(* ================================================================== *)
(** * The closing report *)

(** C9, amended.  A run that reaches its end prints, after the header,
    the path of every movie of the registry, whatever its flags; by
    then every movie has [extracted], [converted] and [encoded] true.
    [merged] is not looked at.  It is false for every movie listed, so
    that none of them is fully completed in the specification's sense,
    when the run began with no merged movie in either checkpoint file
    and no merge call made, as on a disk without checkpoint files or
    one that only runs of [main] have written. *)
Theorem report_lists_every_movie (env : Env) (st st' : Proc)
    (movies : list Movie) (Hrun : main env st = Done movies st') :
  exists st1,
    (registry <- startup env ;; run_stages env registry) st
      = Done movies st1 /\
    st' = printed (report_lines movies) st1 /\
    report_lines movies =
      "" :: "The following movies have been completed:" ::
      map path movies ++ [""] /\
    Forall (fun m => extracted m = true /\ converted m = true /\
                     encoded m = true) movies /\
    (never_merged st ->
     Forall (fun m => merged m = false /\ spec_fully_completed m = false)
       movies).
Proof.
  pose proof Hrun as Hmain.
  unfold main in Hrun.
  apply bind_Done_inv in Hrun. destruct Hrun as (l0 & st0 & H0 & Hrun).
  apply bind_Done_inv in Hrun. destruct Hrun as (l1 & st1 & H1 & Hrun).
  apply bind_Done_inv in Hrun. destruct Hrun as ([] & st2 & Hrep & Hrun).
  unfold ret in Hrun. inversion Hrun; subst. clear Hrun.
  rewrite report_printed in Hrep. inversion Hrep; subst. clear Hrep.
  exists st1.
  split; [|split; [reflexivity|split; [reflexivity|split]]].
  - erewrite bind_Done by eassumption. assumption.
  - apply run_stages_result in H1. subst movies.
    apply Forall_forall. intros m Hm.
    apply in_map_iff in Hm. destruct Hm as (m2 & <- & Hm).
    apply in_map_iff in Hm. destruct Hm as (m1 & <- & Hm).
    apply in_map_iff in Hm. destruct Hm as (m0 & <- & Hm).
    split3.
    + apply (advance_keeps_flag Encode Extract),
        (advance_keeps_flag Convert Extract), (advance_flag Extract).
    + apply (advance_keeps_flag Encode Convert), (advance_flag Convert).
    + apply (advance_flag Encode).
  - intros Hclean.
    destruct (main_never_merged env st Hclean) as [_ Hret].
    specialize (Hret _ _ Hmain).
    eapply Forall_impl; [|exact Hret].
    intros m Hm. unfold unmerged in Hm. unfold spec_fully_completed.
    rewrite Hm. split; [reflexivity | apply andb_false_r].
Qed.

Lemma report_lists_every_movie_witness :
  exists st1,
    (registry <- startup (ex_env [ex_akira_dir]) ;;
     run_stages (ex_env [ex_akira_dir]) registry) (ex_fresh None)
      = Done [ex_encoded] st1 /\
    final (main (ex_env [ex_akira_dir]) (ex_fresh None))
      = printed (report_lines [ex_encoded]) st1 /\
    report_lines [ex_encoded] =
      "" :: "The following movies have been completed:" ::
      map path [ex_encoded] ++ [""] /\
    Forall (fun m => extracted m = true /\ converted m = true /\
                     encoded m = true) [ex_encoded] /\
    Forall (fun m => merged m = false /\ spec_fully_completed m = false)
      [ex_encoded].
Proof.
  assert (Hrun : main (ex_env [ex_akira_dir]) (ex_fresh None)
                 = Done [ex_encoded]
                     (final (main (ex_env [ex_akira_dir]) (ex_fresh None))))
    by (vm_compute; reflexivity).
  destruct (report_lists_every_movie _ _ _ _ Hrun)
    as (st1 & H1 & H2 & H3 & H4 & H5).
  exists st1. split; [exact H1|]. split; [exact H2|].
  split; [exact H3|]. split; [exact H4|].
  apply H5. split3; simpl; [discriminate | discriminate | tauto].
Defined.

(* ================================================================== *)
(** * More on discovery *)

Lemma list_remove_middle (d : string) (pre rest : list string) :
  ~ In d pre -> list_remove d (pre ++ d :: rest) = pre ++ rest.
Proof.
  induction pre as [|x pre IH]; intros Hnotin; simpl.
  - now rewrite String.eqb_refl.
  - destruct (String.eqb d x) eqn:Hdx.
    + apply String.eqb_eq in Hdx. subst. exfalso. apply Hnotin. now left.
    + rewrite IH; [reflexivity|]. intros H. apply Hnotin. now right.
Qed.

Lemma get_movies_loop_past_end (fs0 : FS) (dir : string) (fuel : nat)
    (l : list string) (acc : list Movie) :
  get_movies_loop fs0 dir fuel (S (List.length l)) l acc = Ok acc.
Proof.
  destruct fuel; [reflexivity|]. cbn [get_movies_loop].
  assert (H : nth_error l (S (List.length l)) = None)
    by (apply nth_error_None; lia).
  now rewrite H.
Qed.

(** The walk with the index written out: what is left of the listing
    decides what is scanned. *)
Lemma get_movies_loop_visited (fs0 : FS) (dir : string) :
  forall fuel pre rest acc,
    NoDup (pre ++ rest) -> List.length rest <= fuel ->
    get_movies_loop fs0 dir fuel (List.length pre) (pre ++ rest) acc =
    match scan_dirs fs0 dir (visited rest) with
    | Ok ms => Ok (acc ++ ms)
    | Raise e => Raise e
    end.
Proof.
  induction fuel as [|fuel IH]; intros pre rest acc Hnd Hfuel.
  - destruct rest; [|simpl in Hfuel; lia]. simpl. now rewrite app_nil_r.
  - destruct rest as [|d rest].
    + cbn [get_movies_loop visited scan_dirs]. rewrite app_nil_r.
      assert (H : nth_error pre (List.length pre) = None)
        by (apply nth_error_None; lia).
      now rewrite H, app_nil_r.
    + cbn [get_movies_loop visited]. rewrite nth_error_middle.
      simpl in Hfuel.
      destruct (str_in "__" d) eqn:Htok; cbn [negb].
      * cbn [scan_dirs].
        match goal with |- context [fs0 ?x] => destruct (fs0 x) as [files|] end;
          [|reflexivity].
        replace (pre ++ d :: rest) with ((pre ++ [d]) ++ rest)
          by (now rewrite <- app_assoc).
        replace (S (List.length pre)) with (List.length (pre ++ [d]))
          by (rewrite length_app; simpl; lia).
        rewrite IH; [|now rewrite <- app_assoc|lia].
        destruct (scan_dirs fs0 dir (visited rest)); [|reflexivity].
        now rewrite app_assoc.
      * rewrite list_remove_middle.
        2:{ apply NoDup_remove_2 in Hnd. intros H. apply Hnd.
            apply in_or_app. now left. }
        apply NoDup_remove_1 in Hnd.
        destruct rest as [|nxt rest].
        -- rewrite app_nil_r, get_movies_loop_past_end.
           cbn [scan_dirs]. now rewrite app_nil_r.
        -- replace (pre ++ nxt :: rest) with ((pre ++ [nxt]) ++ rest)
             by (now rewrite <- app_assoc).
           replace (S (List.length pre)) with (List.length (pre ++ [nxt]))
             by (rewrite length_app; simpl; lia).
           apply IH; [now rewrite <- app_assoc|simpl in Hfuel; lia].
Qed.

Lemma visited_all_tokened (l : list string) :
  Forall (fun d => str_in "__" d = true) l -> visited l = l.
Proof.
  induction 1 as [|d l Hd _ IH]; [reflexivity|].
  cbn [visited]. now rewrite Hd, IH.
Qed.

(** What is visited is in the listing and carries the token, and every
    entry without the token hides at most one entry that carries it. *)
Lemma visited_facts :
  forall l,
    (incl (visited l) l /\
     Forall (fun d => str_in "__" d = true) (visited l) /\
     List.length (filter (str_in "__") l)
       <= List.length (visited l)
          + List.length (filter (fun d => negb (str_in "__" d)) l)) /\
    (forall x,
     incl (visited (x :: l)) (x :: l) /\
     Forall (fun d => str_in "__" d = true) (visited (x :: l)) /\
     List.length (filter (str_in "__") (x :: l))
       <= List.length (visited (x :: l))
          + List.length (filter (fun d => negb (str_in "__" d)) (x :: l))).
Proof.
  induction l as [|y l [IHl IHyl]].
  - split.
    + split3; [apply incl_refl | constructor | simpl; lia].
    + intros x. cbn [visited filter]. destruct (str_in "__" x) eqn:Hx;
        cbn [negb].
      * split3; [apply incl_refl | now repeat constructor | simpl; lia].
      * split3; [apply incl_nil_l | constructor | simpl; lia].
  - split; [apply IHyl|].
    intros x. destruct (IHyl y) as (Hi & Ht & Hn).
    destruct IHl as (Hi' & Ht' & Hn').
    cbn [visited filter] in *. destruct (str_in "__" x) eqn:Hx; cbn [negb].
    + split3.
      * intros d [-> | Hd]; [now left | right; now apply Hi].
      * now constructor.
      * simpl. simpl in Hn. lia.
    + split3.
      * intros d Hd. right. right. now apply Hi'.
      * exact Ht'.
      * destruct (str_in "__" y); cbn [negb]; simpl; simpl in Hn'; lia.
Qed.

Lemma scan_dirs_In (fs0 : FS) (dir : string) :
  forall ds ms m,
    scan_dirs fs0 dir ds = Ok ms ->
    (In m ms <->
     exists d files, In d ds /\ fs0 (dir ++ "/" ++ d)%string = Some files /\
                     In m (scan_files dir d files)).
Proof.
  induction ds as [|d ds IH]; intros ms m Hrun; cbn [scan_dirs] in Hrun.
  - inversion Hrun. split; [contradiction|]. now intros (d & files & [] & _).
  - match type of Hrun with context [fs0 ?x] =>
      destruct (fs0 x) as [files|] eqn:Hfs end; [|discriminate].
    destruct (scan_dirs fs0 dir ds) as [ms'|e]; [|discriminate].
    inversion Hrun. subst ms. rewrite in_app_iff, (IH ms' m eq_refl). split.
    + intros [Hin | (d' & files' & Hd' & Hfs' & Hin)].
      * exists d, files. split3; auto. now left.
      * exists d', files'. split3; auto. now right.
    + intros (d' & files' & [<- | Hd'] & Hfs' & Hin).
      * left. rewrite Hfs in Hfs'. inversion Hfs'. now subst.
      * right. now exists d', files'.
Qed.

Lemma scan_dirs_Raise (fs0 : FS) (dir : string) :
  forall ds e,
    scan_dirs fs0 dir ds = Raise e <->
    e = OSError /\
    exists d, In d ds /\ fs0 (dir ++ "/" ++ d)%string = None.
Proof.
  induction ds as [|d ds IH]; intros e; cbn [scan_dirs].
  - split; [discriminate|]. now intros (_ & d & [] & _).
  - match goal with |- context [fs0 ?x] =>
      destruct (fs0 x) as [files|] eqn:Hfs end.
    + destruct (scan_dirs fs0 dir ds) as [ms'|e'].
      * split; [discriminate|].
        intros (He & d' & [<- | Hd'] & Hnone); [congruence|].
        assert (H : Ok ms' = Raise e)
          by (apply IH; split; [exact He | now exists d']).
        discriminate.
      * split.
        -- intros H. inversion H. subst e'.
           destruct (proj1 (IH e) eq_refl) as (He & d' & Hd' & Hnone).
           split; [exact He|]. exists d'. split; [now right | exact Hnone].
        -- intros (He & _). destruct (proj1 (IH e') eq_refl) as (He' & _).
           congruence.
    + split.
      * intros H. inversion H. split; [reflexivity|].
        exists d. split; [now left | exact Hfs].
      * now intros (-> & _).
Qed.

(** Whatever the walk adds to the list of movies was built from a
    file of a subdirectory that is in the listing, carries the token
    and could be listed. *)
Lemma get_movies_loop_sound (fs0 : FS) (dir : string) (orig : list string)
    (P : Movie -> Prop)
    (HP : forall d files f,
        In d orig -> str_in "__" d = true ->
        fs0 (dir ++ "/" ++ d)%string = Some files -> In f files ->
        qualifies f = true -> P (new_Movie dir d f)) :
  forall fuel i directories movieList ms,
    incl directories orig -> Forall P movieList ->
    get_movies_loop fs0 dir fuel i directories movieList = Ok ms ->
    Forall P ms.
Proof.
  induction fuel as [|fuel IH]; intros i l acc ms Hincl Hacc Hrun;
    cbn [get_movies_loop] in Hrun.
  - now inversion Hrun; subst.
  - destruct (nth_error l i) as [d|] eqn:Hd; [|now inversion Hrun; subst].
    apply nth_error_In in Hd.
    destruct (str_in "__" d) eqn:Htok; cbn [negb] in Hrun.
    + match type of Hrun with context [fs0 ?x] =>
        destruct (fs0 x) as [files|] eqn:Hfs end; [|discriminate].
      eapply IH; [exact Hincl| |exact Hrun].
      apply Forall_app; split; [assumption|].
      apply Forall_forall. intros m Hm.
      apply scan_files_In in Hm. destruct Hm as (f & -> & Hf & H1 & H2).
      eapply HP; eauto. unfold qualifies. now rewrite H1, H2.
    + eapply IH; [|exact Hacc|exact Hrun].
      intros x Hx. apply Hincl. clear - Hx.
      induction l as [|y l IHl]; [contradiction|]. simpl in Hx.
      destruct (String.eqb d y); [now right|].
      destruct Hx as [-> | Hx]; [now left | right; auto].
Qed.

(** Closes [NoDup] of a list of string literals. *)
Ltac nodup_literals :=
  repeat (apply NoDup_cons; [simpl; intuition discriminate|]);
  apply NoDup_nil.

(** X1.  [get_movies] in closed form.  For a listing of the root
    without repeated names, the function returns the candidates of the
    subdirectories the walk reaches, in listing order, or raises when
    one of them cannot be listed.  The walk reaches only entries of the
    listing that carry the token, and every entry without the token
    keeps it from at most one entry that carries it. *)
Theorem get_movies_scans_reached_entries (fs0 : FS) (dir : string)
    (directories : list string)
    (Hroot : fs0 dir = Some directories) (Hnd : NoDup directories) :
  get_movies fs0 dir = scan_dirs fs0 dir (visited directories) /\
  incl (visited directories) directories /\
  Forall (fun d => str_in "__" d = true) (visited directories) /\
  List.length (filter (str_in "__") directories)
    <= List.length (visited directories)
       + List.length (filter (fun d => negb (str_in "__" d)) directories).
Proof.
  split; [|apply visited_facts].
  unfold get_movies. rewrite Hroot.
  rewrite (get_movies_loop_visited fs0 dir _ [] directories []);
    [|exact Hnd|lia].
  now destruct (scan_dirs fs0 dir (visited directories)).
Qed.

Lemma get_movies_scans_reached_entries_witness :
  get_movies (ex_fs ["NoInstructions"; ex_akira_dir; ex_movie_dir]) ex_root
    = scan_dirs (ex_fs ["NoInstructions"; ex_akira_dir; ex_movie_dir])
        ex_root (visited ["NoInstructions"; ex_akira_dir; ex_movie_dir]) /\
  visited ["NoInstructions"; ex_akira_dir; ex_movie_dir] = [ex_movie_dir].
Proof.
  split; [|reflexivity].
  apply (get_movies_scans_reached_entries
           (ex_fs ["NoInstructions"; ex_akira_dir; ex_movie_dir]) ex_root
           ["NoInstructions"; ex_akira_dir; ex_movie_dir]).
  - reflexivity.
  - unfold ex_akira_dir, ex_movie_dir. nodup_literals.
Defined.

(** X2.  Discovery is complete when every entry of the root carries
    the token: every subdirectory is scanned, in listing order, and
    every qualifying file of every subdirectory is among the movies
    returned. *)
Theorem get_movies_complete_when_all_tokened (fs0 : FS) (dir : string)
    (directories : list string)
    (Hroot : fs0 dir = Some directories) (Hnd : NoDup directories)
    (Htok : Forall (fun d => str_in "__" d = true) directories) :
  get_movies fs0 dir = scan_dirs fs0 dir directories /\
  (forall ms d files f,
      get_movies fs0 dir = Ok ms ->
      In d directories -> fs0 (dir ++ "/" ++ d)%string = Some files ->
      In f files -> qualifies f = true ->
      In (new_Movie dir d f) ms).
Proof.
  assert (Heq : get_movies fs0 dir = scan_dirs fs0 dir directories).
  { unfold get_movies. rewrite Hroot.
    rewrite (get_movies_loop_visited fs0 dir _ [] directories []);
      [|exact Hnd|lia].
    rewrite (visited_all_tokened _ Htok).
    now destruct (scan_dirs fs0 dir directories). }
  split; [exact Heq|].
  intros ms d files f Hrun Hd Hfs Hf Hq. rewrite Heq in Hrun.
  apply (scan_dirs_In fs0 dir directories ms _ Hrun).
  exists d, files. split3; auto.
  apply scan_files_In. exists f. unfold qualifies in Hq.
  apply andb_true_iff in Hq. destruct Hq as [Hc Hm].
  apply negb_true_iff in Hc. auto.
Qed.

Lemma get_movies_complete_when_all_tokened_witness :
  get_movies (ex_fs [ex_akira_dir; ex_movie_dir]) ex_root
    = scan_dirs (ex_fs [ex_akira_dir; ex_movie_dir]) ex_root
        [ex_akira_dir; ex_movie_dir] /\
  In ex_movie [ex_akira; ex_movie].
Proof.
  assert (Hnd : NoDup [ex_akira_dir; ex_movie_dir])
    by (unfold ex_akira_dir, ex_movie_dir; nodup_literals).
  assert (Htok : Forall (fun d => str_in "__" d = true)
                   [ex_akira_dir; ex_movie_dir])
    by (repeat constructor).
  destruct (get_movies_complete_when_all_tokened
              (ex_fs [ex_akira_dir; ex_movie_dir]) ex_root
              [ex_akira_dir; ex_movie_dir] eq_refl Hnd Htok) as [Heq Hin].
  split; [exact Heq|].
  apply (Hin [ex_akira; ex_movie] ex_movie_dir ["Movie.mkv"] "Movie.mkv").
  - vm_compute. reflexivity.
  - right. now left.
  - reflexivity.
  - now left.
  - reflexivity.
Defined.

(** X3.  Discovery is sound: every movie returned was built from a
    qualifying file of a subdirectory that is in the listing of the
    root, carries the token and could be listed; its path is put
    together from the root, the subdirectory and the file name, and
    none of its four flags is set. *)
Theorem get_movies_returns_fresh_movies_of_tokened_dirs (fs0 : FS)
    (dir : string) (ms : list Movie) (m : Movie)
    (Hrun : get_movies fs0 dir = Ok ms) (Hin : In m ms) :
  exists directories files,
    fs0 dir = Some directories /\
    In (subdir m) directories /\ str_in "__" (subdir m) = true /\
    fs0 (dir ++ "/" ++ subdir m)%string = Some files /\
    In (fileName m) files /\ qualifies (fileName m) = true /\
    m = new_Movie dir (subdir m) (fileName m) /\
    path m = (dir ++ subdir m ++ "/" ++ fileName m)%string /\
    untouched m.
Proof.
  unfold get_movies in Hrun.
  destruct (fs0 dir) as [directories|] eqn:Hroot; [|discriminate].
  exists directories.
  eapply get_movies_loop_sound
    with (orig := directories)
         (P := fun m => exists files,
                   Some directories = Some directories /\
                   In (subdir m) directories /\
                   str_in "__" (subdir m) = true /\
                   fs0 (dir ++ "/" ++ subdir m)%string = Some files /\
                   In (fileName m) files /\ qualifies (fileName m) = true /\
                   m = new_Movie dir (subdir m) (fileName m) /\
                   path m = (dir ++ subdir m ++ "/" ++ fileName m)%string /\
                   untouched m)
    in Hrun.
  - rewrite Forall_forall in Hrun. exact (Hrun m Hin).
  - intros d files f Hd Htok Hfs Hf Hq. exists files. simpl.
    unfold untouched. simpl. tauto.
  - apply incl_refl.
  - constructor.
Qed.

Lemma get_movies_returns_fresh_movies_of_tokened_dirs_witness :
  exists directories files,
    ex_fs [ex_akira_dir; "NoInstructions"] ex_root = Some directories /\
    In (subdir ex_akira) directories /\
    str_in "__" (subdir ex_akira) = true /\
    ex_fs [ex_akira_dir; "NoInstructions"]
      (ex_root ++ "/" ++ subdir ex_akira)%string = Some files /\
    In (fileName ex_akira) files /\ qualifies (fileName ex_akira) = true /\
    ex_akira = new_Movie ex_root (subdir ex_akira) (fileName ex_akira) /\
    path ex_akira
      = (ex_root ++ subdir ex_akira ++ "/" ++ fileName ex_akira)%string /\
    untouched ex_akira.
Proof.
  apply (get_movies_returns_fresh_movies_of_tokened_dirs
           (ex_fs [ex_akira_dir; "NoInstructions"]) ex_root [ex_akira]).
  - vm_compute. reflexivity.
  - now left.
Defined.

(** X4.  When the root can be listed, discovery fails exactly when a
    subdirectory the walk reaches cannot be listed, and then with
    [OSError]: one entry that carries the token and is not a directory
    loses the movies of all the others. *)
Theorem get_movies_fails_iff_reached_entry_unlistable (fs0 : FS)
    (dir : string) (directories : list string)
    (Hroot : fs0 dir = Some directories) (Hnd : NoDup directories) :
  forall e,
    get_movies fs0 dir = Raise e <->
    e = OSError /\
    exists d, In d (visited directories) /\
              fs0 (dir ++ "/" ++ d)%string = None.
Proof.
  intros e. rewrite <- scan_dirs_Raise.
  unfold get_movies. rewrite Hroot.
  rewrite (get_movies_loop_visited fs0 dir _ [] directories []);
    [|exact Hnd|lia].
  destruct (scan_dirs fs0 dir (visited directories)); [|reflexivity].
  split; discriminate.
Qed.

Lemma get_movies_fails_iff_reached_entry_unlistable_witness :
  get_movies (ex_fs [ex_akira_dir; "track__01.mkv"]) ex_root = Raise OSError.
Proof.
  apply (get_movies_fails_iff_reached_entry_unlistable
           (ex_fs [ex_akira_dir; "track__01.mkv"]) ex_root
           [ex_akira_dir; "track__01.mkv"]).
  - reflexivity.
  - unfold ex_akira_dir. nodup_literals.
  - split; [reflexivity|]. exists "track__01.mkv".
    split; [right; now left | reflexivity].
Defined.

(* ================================================================== *)
(** * More on the merge of recovered and discovered movies *)

Lemma In_remove_at {A : Type} (i : nat) (l : list A) (x raw : A) :
  In x l -> nth_error l i = Some raw -> x <> raw -> In x (remove_at i l).
Proof.
  intros Hin Hnth Hne.
  apply nth_error_split in Hnth. destruct Hnth as (l1 & l2 & -> & <-).
  rewrite remove_at_middle. apply in_app_or in Hin. apply in_or_app.
  destruct Hin as [Hin | [Heq | Hin]]; auto. now subst.
Qed.

(** The inner loop takes out only elements with the path it looks for. *)
Lemma remove_matching_loop_keeps (p : string) (m : Movie) :
  path m <> p ->
  forall fuel i newMovies,
    In m newMovies -> In m (remove_matching_loop p fuel i newMovies).
Proof.
  intros Hne. induction fuel as [|fuel IH]; intros i l Hin; simpl; auto.
  destruct (nth_error l i) as [raw|] eqn:Hnth; auto.
  destruct (String.eqb p (path raw)) eqn:Hp; auto.
  apply String.eqb_eq in Hp. apply IH.
  eapply In_remove_at; eauto. intros ->. now apply Hne.
Qed.

Lemma remove_known_keeps (m : Movie) :
  forall movies newMovies,
    ~ In (path m) (map path movies) -> In m newMovies ->
    In m (remove_known movies newMovies).
Proof.
  unfold remove_known.
  induction movies as [|movie movies IH]; intros nm Hnotin Hin; simpl; auto.
  apply IH.
  - intros H. apply Hnotin. now right.
  - apply remove_matching_loop_keeps; auto.
    intros H. apply Hnotin. left. now symmetry.
Qed.

(** X5.  The merge loses nothing, whatever the two lists hold: the
    recovered movies stay at the front as they are, nothing is added
    that discovery did not find, no discovered movie with a path new to
    the registry is dropped, and so every path that was recovered or
    discovered is a path of the merged registry. *)
Theorem merge_movies_covers_every_path (movies newMovies : list Movie) :
  firstn (List.length movies) (merge_movies movies newMovies) = movies /\
  incl (skipn (List.length movies) (merge_movies movies newMovies))
       newMovies /\
  (forall m, In m newMovies -> ~ In (path m) (map path movies) ->
             In m (merge_movies movies newMovies)) /\
  (forall p, In p (map path movies ++ map path newMovies) ->
             In p (map path (merge_movies movies newMovies))).
Proof.
  unfold merge_movies.
  assert (Hnew : forall m, In m newMovies ->
                   ~ In (path m) (map path movies) ->
                   In m (movies ++ remove_known movies newMovies)).
  { intros m Hin Hnotin. apply in_or_app. right.
    now apply remove_known_keeps. }
  split; [|split3].
  - rewrite firstn_app, Nat.sub_diag, firstn_all. cbn [firstn].
    apply app_nil_r.
  - rewrite skipn_app, Nat.sub_diag, skipn_all. cbn [skipn app].
    apply remove_known_incl.
  - exact Hnew.
  - intros p Hp. rewrite map_app. apply in_app_or in Hp.
    destruct Hp as [Hp | Hp]; [apply in_or_app; now left|].
    destruct (in_dec string_dec p (map path movies)) as [Hold | Hnotin];
      [apply in_or_app; now left|].
    apply in_map_iff in Hp. destruct Hp as (m & <- & Hin).
    rewrite <- map_app. apply in_map. now apply Hnew.
Qed.

(* ================================================================== *)
(** * More on the checkpoint files *)

(** X6.  The copy of the backup over the primary at the start of a run
    never ends the run with an exception: the [except IOError] takes a
    missing backup and a primary that cannot be written alike, and in
    both cases the files are left as they were. *)
Theorem restore_backup_swallows_every_IOError (st : Proc) :
  (forall e st', restore_backup st <> Failed e st') /\
  (backup st = None -> restore_backup st = Done tt st) /\
  (ticks st = None -> primary_ro st = true -> restore_backup st = Done tt st).
Proof.
  destruct st as [p b pr br out evs k]. split3.
  - intros e st'. destruct b as [c|], pr, k as [[|[|k]]|]; run_prim;
      discriminate.
  - simpl. intros ->. reflexivity.
  - simpl. intros -> ->. destruct b; reflexivity.
Qed.

(** X7.  Round trip.  The registry a completed checkpoint has written
    is the registry the next process recovers, and recovery prints no
    notice and leaves it in both files. *)
Theorem checkpoint_then_recover (movies : list Movie) (st st' : Proc)
    (Hdone : checkpoint movies st = Done tt st') :
  exists st'',
    recover (restart None st') = Done movies st'' /\
    primary st'' = Some (Pickled movies) /\
    backup st'' = Some (Pickled movies) /\
    stdout st'' = [].
Proof.
  destruct st as [p b pr br out evs k].
  destruct pr, br, k as [[|[|[|[|k]]]]|]; run_prim;
    try discriminate; inversion Hdone; subst;
    eexists; (split; [reflexivity|]); auto.
Qed.

Lemma checkpoint_then_recover_witness :
  exists st'',
    recover (restart None
               (log (Copied Primary Backup)
                  (write_file Backup (Pickled [ex_akira])
                     (log (Dumped [ex_akira])
                        (write_file Primary (Pickled [ex_akira])
                           (ex_fresh None))))))
      = Done [ex_akira] st'' /\
    primary st'' = Some (Pickled [ex_akira]) /\
    backup st'' = Some (Pickled [ex_akira]) /\
    stdout st'' = [].
Proof.
  apply (checkpoint_then_recover [ex_akira] (ex_fresh None)).
  reflexivity.
Defined.

(** X8.  Recovery follows the backup.  Without a backup the primary
    decides.  With one, and a primary that can be written, what the
    primary held plays no part: the primary ends up with the contents
    of the backup, and the registry recovered, the notice, or the
    exception that ends the run depend on the backup alone. *)
Theorem recover_follows_backup (st : Proc) :
  (backup st = None -> recover st = load_movies st) /\
  (forall c,
      backup st = Some c -> primary_ro st = false -> ticks st = None ->
      let st1 := log (Copied Backup Primary) (write_file Primary c st) in
      recover st =
      match c with
      | Pickled ms => Done ms st1
      | Damaged e =>
          if is_IOError_or_EOFError e
          then Done []
                 (printed
                    ["No existing movie in process found. Starting from scratch"]
                    st1)
          else Failed e st1
      end).
Proof.
  destruct st as [p b pr br out evs k]. split.
  - simpl. intros ->. reflexivity.
  - simpl. intros c -> -> ->. destruct c as [ms|e]; [reflexivity|].
    run_prim. destruct (Exn_eqb e IOError || Exn_eqb e EOFError);
      reflexivity.
Qed.

Lemma recover_follows_backup_witness :
  recover (mkProc (Some (Pickled [ex_akira])) (Some (Damaged EOFError))
             false false [] [] None)
  = Done []
      (mkProc (Some (Damaged EOFError)) (Some (Damaged EOFError))
         false false
         ["No existing movie in process found. Starting from scratch"]
         [Copied Backup Primary] None).
Proof.
  apply (proj2 (recover_follows_backup
                  (mkProc (Some (Pickled [ex_akira]))
                     (Some (Damaged EOFError)) false false [] [] None))
           (Damaged EOFError)); reflexivity.
Defined.

(** X9.  A process terminated while it dumps the registry costs the
    work of one step only: the backup still holds the registry of the
    checkpoint before, and that is what the next process recovers,
    whatever state the primary was left in. *)
Theorem kill_during_dump_recovers_backup (movies ms : list Movie)
    (st st' : Proc)
    (Hbackup : backup st = Some (Pickled ms))
    (Hrw : primary_ro st = false)
    (Hkill : pickle_dump movies st = Killed st') :
  exists st'',
    recover (restart None st') = Done ms st'' /\
    primary st'' = Some (Pickled ms) /\
    backup st'' = Some (Pickled ms).
Proof.
  destruct st as [p b pr br out evs k]. simpl in Hbackup, Hrw. subst.
  destruct k as [[|[|k]]|]; run_prim; try discriminate;
    inversion Hkill; subst; eexists; (split; [reflexivity|]); auto.
Qed.

Lemma kill_during_dump_recovers_backup_witness :
  exists st'',
    recover (restart None
               (mkProc (Some (Damaged EOFError)) (Some (Pickled [ex_akira]))
                  false false [] [] (Some 0)))
      = Done [ex_akira] st'' /\
    primary st'' = Some (Pickled [ex_akira]) /\
    backup st'' = Some (Pickled [ex_akira]).
Proof.
  apply (kill_during_dump_recovers_backup
           [set_flag Extract ex_akira] [ex_akira]
           (mkProc (Some (Pickled [ex_akira])) (Some (Pickled [ex_akira]))
              false false [] [] (Some 1)));
    reflexivity.
Defined.

(* ================================================================== *)
(** * More on the stage passes *)

(** A pass that ends well has found every tool it called to succeed. *)
Lemma stage_pass_Done_tools (env : Env) (s : Stage) :
  forall rest done st l st',
    stage_pass env s done rest st = Done l st' ->
    Forall (fun m => flag s m = false -> tool_ok env s m = true) rest.
Proof.
  induction rest as [|movie rest IH]; intros done st l st' H;
    [constructor|].
  pose proof H as H'. apply stage_pass_cons_Done in H'.
  destruct H' as (st1 & H'). constructor; [|eapply IH, H'].
  intros Hflag. cbn [stage_pass] in H. rewrite Hflag in H. cbn [negb] in H.
  apply bind_Done_inv in H. destruct H as (m & st2 & Hm & _).
  apply bind_Done_inv in Hm. destruct Hm as (m' & st3 & Htool & _).
  now apply run_tool_Done_inv in Htool.
Qed.

Lemma Run_cases {A : Type} (r : Run A) :
  (exists a st', r = Done a st') \/ cut_short r.
Proof.
  destruct r as [a st'|e st'|st']; unfold cut_short; eauto.
Qed.

(** X11.  Nothing catches what a stage method raises.  When the tool
    of one of the first three stages fails for a movie of the registry
    whose flag of that stage is false, the loops do not end well: the
    run stops with an exception, or is terminated before it gets
    there, and the closing report is not reached. *)
Theorem failing_tool_cuts_run_short (env : Env) (movies : list Movie)
    (movie : Movie) (s : Stage) (st : Proc)
    (Hin : In movie movies) (Hflag : flag s movie = false)
    (Hs : s <> Merge)
    (Hfail : forall m, path m = path movie -> tool_ok env s m = false) :
  cut_short (run_stages env movies st).
Proof.
  destruct (Run_cases (run_stages env movies st))
    as [(l & st' & Hdone) | Hcut]; [exfalso|exact Hcut].
  unfold run_stages in Hdone.
  apply bind_Done_inv in Hdone. destruct Hdone as (l1 & st1 & H1 & Hdone).
  apply bind_Done_inv in Hdone. destruct Hdone as (l2 & st2 & H2 & Hdone).
  apply bind_Done_inv in Hdone. destruct Hdone as (l3 & st3 & H3 & _).
  pose proof (stage_pass_result _ _ _ _ _ _ _ H1) as E1.
  pose proof (stage_pass_result _ _ _ _ _ _ _ H2) as E2.
  simpl in E1, E2. subst l1 l2.
  apply stage_pass_Done_tools in H1, H2, H3.
  rewrite Forall_forall in H1, H2, H3.
  destruct s; [| | |congruence].
  - specialize (H1 movie Hin Hflag). rewrite Hfail in H1; congruence.
  - specialize (H2 (advance Extract movie) (in_map _ _ _ Hin)).
    rewrite advance_other_flag in H2 by discriminate.
    rewrite Hfail in H2 by apply advance_path. now specialize (H2 Hflag).
  - specialize (H3 (advance Convert (advance Extract movie))
                  (in_map _ _ _ (in_map _ _ _ Hin))).
    rewrite !advance_other_flag in H3 by discriminate.
    rewrite Hfail in H3 by (now rewrite !advance_path).
    now specialize (H3 Hflag).
Qed.

Lemma failing_tool_cuts_run_short_witness :
  cut_short
    (run_stages (ex_env_failing Convert [ex_akira_dir; ex_movie_dir])
       [ex_akira; ex_movie] (ex_checkpointed [ex_akira; ex_movie])).
Proof.
  apply (failing_tool_cuts_run_short
           (ex_env_failing Convert [ex_akira_dir; ex_movie_dir])
           [ex_akira; ex_movie] ex_movie Convert).
  - right. now left.
  - reflexivity.
  - discriminate.
  - reflexivity.
Defined.

Lemma work_app (a b : list Event) : work (a ++ b) = work a ++ work b.
Proof. apply filter_app. Qed.

Lemma copy_to_backup_keeps_work (w : list Event) (p : option Contents) :
  ensures (fun st => work (events st) = w /\ primary st = p)
    (copyfile Primary Backup) (fun _ => True).
Proof.
  intros st [Hw Hp]. split; [|trivial].
  destruct st as [p0 b pr br out evs k]. simpl in Hw, Hp. subst w p.
  destruct p0 as [c|], br, k as [[|[|k]]|]; run_prim;
    rewrite ?work_app; simpl; rewrite ?app_nil_r; auto.
Qed.

(** A pass over movies that all have its flag set copies the primary
    to the backup and does nothing else. *)
Lemma stage_pass_skips (env : Env) (s : Stage) (w : list Event)
    (p : option Contents) :
  forall rest done,
    Forall (fun m => flag s m = true) rest ->
    ensures (fun st => work (events st) = w /\ primary st = p)
      (stage_pass env s done rest) (fun l => l = done ++ rest).
Proof.
  induction rest as [|movie rest IH]; intros done Hall.
  - apply ensures_ret. now rewrite app_nil_r.
  - inversion Hall as [|? ? Hm Hrest]; subst. cbn [stage_pass].
    rewrite Hm. cbn [negb].
    eapply ensures_bind with (P := fun m => m = movie);
      [now apply ensures_ret|].
    intros m ->.
    eapply ensures_bind; [apply copy_to_backup_keeps_work|]. intros _ _.
    eapply ensures_weaken; [apply IH, Hrest|].
    intros l ->. now rewrite <- app_assoc.
Qed.

(** X12.  Resuming costs nothing for what is finished.  Over a
    registry whose movies all have the extracted, converted and encoded
    flags set, the loops call no tool and dump nothing, however they
    end; the primary file is not touched, and the registry they return
    is the one they were given. *)
Theorem finished_registry_is_left_alone (env : Env) (movies : list Movie)
    (st : Proc) (Hall : Forall encoded_through movies) :
  work (events (final (run_stages env movies st))) = work (events st) /\
  primary (final (run_stages env movies st)) = primary st /\
  (forall l st', run_stages env movies st = Done l st' -> l = movies).
Proof.
  assert (H : ensures (fun st0 => work (events st0) = work (events st) /\
                                  primary st0 = primary st)
                (run_stages env movies) (fun l => l = movies)).
  { unfold run_stages.
    eapply ensures_bind.
    { apply stage_pass_skips with (done := []).
      eapply Forall_impl; [|exact Hall]. now intros m (H1 & _ & _). }
    intros l1 ->. cbn [app].
    eapply ensures_bind.
    { apply stage_pass_skips with (done := []).
      eapply Forall_impl; [|exact Hall]. now intros m (_ & H2 & _). }
    intros l2 ->. cbn [app].
    eapply ensures_bind.
    { apply stage_pass_skips with (done := []).
      eapply Forall_impl; [|exact Hall]. now intros m (_ & _ & H3). }
    intros l3 ->. cbn [app].
    eapply ensures_bind with (P := fun _ => True);
      [|intros _ _; now apply ensures_ret].
    intros st0 Hst0. rewrite merge_pass_nothing. auto. }
  destruct (H st (conj eq_refl eq_refl)) as [[Hw Hp] Hret]. auto.
Qed.

Lemma finished_registry_is_left_alone_witness :
  work (events (final (run_stages (ex_env [ex_akira_dir]) [ex_encoded]
                         (ex_checkpointed [ex_encoded]))))
    = work (events (ex_checkpointed [ex_encoded])) /\
  primary (final (run_stages (ex_env [ex_akira_dir]) [ex_encoded]
                    (ex_checkpointed [ex_encoded])))
    = primary (ex_checkpointed [ex_encoded]).
Proof.
  assert (Hall : Forall encoded_through [ex_encoded])
    by (repeat constructor).
  destruct (finished_registry_is_left_alone (ex_env [ex_akira_dir])
              [ex_encoded] (ex_checkpointed [ex_encoded]) Hall)
    as (Hw & Hp & _).
  split; assumption.
Defined.

(* ================================================================== *)
(** * The start of a run *)

(** Recovery prints the notice or nothing, and the notice only when it
    comes back with the empty registry. *)
Lemma recover_Done_stdout (st st1 : Proc) (recovered : list Movie) :
  recover st = Done recovered st1 ->
  exists notice,
    stdout st1 = stdout st ++ notice /\
    (notice = [] \/
     notice = ["No existing movie in process found. Starting from scratch"]
     /\ recovered = []).
Proof.
  destruct st as [p b pr br out evs k].
  destruct p as [[ms|e]|], b as [[ms'|e']|], pr, k as [[|[|k]]|];
    run_prim; try discriminate;
    repeat match goal with
           | |- context [Exn_eqb ?x ?y] => destruct x; simpl
           end;
    intros H; inversion H; subst; simpl;
    first [ exists []; rewrite app_nil_r; split; [reflexivity | now left]
          | eexists; split; [reflexivity | right; split; reflexivity] ].
Qed.

Lemma checkpoint_Done_inv (movies : list Movie) (st st' : Proc) :
  checkpoint movies st = Done tt st' ->
  primary st' = Some (Pickled movies) /\
  backup st' = Some (Pickled movies) /\
  stdout st' = stdout st /\
  events st' = events st ++ [Dumped movies; Copied Primary Backup].
Proof.
  destruct st as [p b pr br out evs k].
  destruct pr, br, k as [[|[|[|[|k]]]]|]; run_prim;
    try discriminate; intros H; inversion H; subst;
    rewrite <- ?app_assoc; auto.
Qed.

Lemma lift_Done_inv {A : Type} (r : result A) (a : A) (st st' : Proc) :
  lift r st = Done a st' -> r = Ok a /\ st' = st.
Proof.
  unfold lift. destruct r; [|discriminate].
  intros H. inversion H. auto.
Qed.

(** X13.  What a start that ends well has done.  The registry it
    hands to the loops is the one [recover] returned for the files the
    start found, followed by the movies of [get_movies] that the merge
    kept; both checkpoint files hold it; and what was printed is what
    recovery printed, the notice when the registry was started from
    scratch and nothing otherwise, then the recovered movies under
    their heading and the whole registry under its own. *)
Theorem startup_prints_and_saves_registry (env : Env) (st st' : Proc)
    (movies : list Movie)
    (Hdone : startup env st = Done movies st') :
  exists recovered st1 newMovies notice,
    recover st = Done recovered st1 /\
    stdout st1 = stdout st ++ notice /\
    (notice = [] \/
     notice = ["No existing movie in process found. Starting from scratch"]
     /\ recovered = []) /\
    get_movies (fs env) (cwd env ++ "/toConvert/")%string = Ok newMovies /\
    movies = merge_movies recovered newMovies /\
    stdout st'
      = stdout st1
        ++ [""; "Found the following movies in progress:"]
        ++ map path recovered
        ++ [""; ""; "Total movie list after adding new movies:"]
        ++ map path movies /\
    primary st' = Some (Pickled movies) /\
    backup st' = Some (Pickled movies).
Proof.
  unfold startup in Hdone.
  apply bind_Done_inv in Hdone.
  destruct Hdone as (recovered & st1 & Hrec & Hdone).
  rewrite !bind_print, bind_print_paths, bind_print in Hdone.
  apply bind_Done_inv in Hdone.
  destruct Hdone as (newMovies & st2 & Hget & Hdone).
  apply lift_Done_inv in Hget. destruct Hget as [Hget ->].
  rewrite !bind_print, bind_print_paths in Hdone.
  apply bind_Done_inv in Hdone.
  destruct Hdone as ([] & st3 & Hcp & Hdone).
  inversion Hdone. subst. clear Hdone.
  apply checkpoint_Done_inv in Hcp.
  destruct Hcp as (Hp & Hb & Hout & _).
  destruct (recover_Done_stdout _ _ _ Hrec) as (notice & Hout1 & Hnotice).
  exists recovered, st1, newMovies, notice.
  split; [exact Hrec|]. split; [exact Hout1|]. split; [exact Hnotice|].
  split; [exact Hget|]. split; [reflexivity|].
  split; [|split; assumption].
  rewrite Hout. rewrite !printed_printed. unfold printed. cbn [stdout].
  unfold merge_movies. rewrite <- ?app_assoc. reflexivity.
Qed.

Lemma startup_prints_and_saves_registry_witness :
  exists recovered st1 newMovies notice,
    recover (ex_checkpointed [ex_encoded]) = Done recovered st1 /\
    stdout st1 = stdout (ex_checkpointed [ex_encoded]) ++ notice /\
    (notice = [] \/
     notice = ["No existing movie in process found. Starting from scratch"]
     /\ recovered = []) /\
    get_movies (fs (ex_env [ex_akira_dir; ex_movie_dir]))
      (cwd (ex_env [ex_akira_dir; ex_movie_dir]) ++ "/toConvert/")%string
      = Ok newMovies /\
    [ex_encoded; ex_movie] = merge_movies recovered newMovies /\
    stdout (final (startup (ex_env [ex_akira_dir; ex_movie_dir])
                     (ex_checkpointed [ex_encoded])))
      = stdout st1
        ++ [""; "Found the following movies in progress:"]
        ++ map path recovered
        ++ [""; ""; "Total movie list after adding new movies:"]
        ++ map path [ex_encoded; ex_movie] /\
    primary (final (startup (ex_env [ex_akira_dir; ex_movie_dir])
                      (ex_checkpointed [ex_encoded])))
      = Some (Pickled [ex_encoded; ex_movie]) /\
    backup (final (startup (ex_env [ex_akira_dir; ex_movie_dir])
                     (ex_checkpointed [ex_encoded])))
      = Some (Pickled [ex_encoded; ex_movie]).
Proof.
  apply (startup_prints_and_saves_registry
           (ex_env [ex_akira_dir; ex_movie_dir])
           (ex_checkpointed [ex_encoded])).
  vm_compute. reflexivity.
Defined.

(* ================================================================== *)
(** * One entry per path *)

Lemma append_inj_l (a x y : string) : (a ++ x = a ++ y)%string -> x = y.
Proof.
  induction a as [|c a IH]; simpl; [trivial|].
  intros H. injection H as H. auto.
Qed.

Lemma no_slash_cons (c : ascii) (d : string) :
  no_slash (String c d) -> c <> "/"%char /\ no_slash d.
Proof.
  unfold no_slash. cbn [str_in String.prefix].
  destruct (ascii_dec "/" c) as [<- | Hne].
  - destruct d; discriminate.
  - intros H. split; [congruence | exact H].
Qed.

(** The subdirectory and the file name can be read off the part of a
    path behind the root. *)
Lemma subdir_file_inj (d1 d2 f1 f2 : string) :
  no_slash d1 -> no_slash d2 ->
  (d1 ++ "/" ++ f1 = d2 ++ "/" ++ f2)%string -> d1 = d2 /\ f1 = f2.
Proof.
  revert d2. induction d1 as [|c1 d1 IH]; intros [|c2 d2] H1 H2 Heq;
    simpl in Heq.
  - injection Heq as Heq. auto.
  - injection Heq as Hc _. apply no_slash_cons in H2. destruct H2 as [H2 _].
    congruence.
  - injection Heq as Hc _. apply no_slash_cons in H1. destruct H1 as [H1 _].
    congruence.
  - injection Heq as Hc Heq. subst c2.
    apply no_slash_cons in H1, H2. destruct H1 as [_ H1], H2 as [_ H2].
    destruct (IH d2 H1 H2 Heq) as [-> ->]. auto.
Qed.

Lemma movie_path_inj (dir d1 d2 f1 f2 : string) :
  no_slash d1 -> no_slash d2 ->
  movie_path dir d1 f1 = movie_path dir d2 f2 -> d1 = d2 /\ f1 = f2.
Proof.
  unfold movie_path. intros H1 H2 Heq. apply append_inj_l in Heq.
  now apply subdir_file_inj.
Qed.

Lemma scan_files_one_per_path (dir d : string) (files : list string) :
  no_slash d -> NoDup files -> one_per_path (scan_files dir d files).
Proof.
  unfold one_per_path. intros Hd.
  induction files as [|f files IH]; intros Hnd; cbn [scan_files].
  - constructor.
  - apply NoDup_cons_iff in Hnd. destruct Hnd as [Hnotin Hnd].
    destruct (negb (str_in "--converted" f) && str_in ".mkv" f);
      [|now apply IH].
    cbn [map]. constructor; [|now apply IH].
    intros Hin. apply in_map_iff in Hin. destruct Hin as (m & Hpath & Hm).
    apply scan_files_In in Hm. destruct Hm as (f' & -> & Hf' & _).
    simpl in Hpath. apply movie_path_inj in Hpath; auto.
    destruct Hpath as [_ ->]. contradiction.
Qed.

Lemma scan_dirs_one_per_path (fs0 : FS) (dir : string) :
  forall ds ms,
    NoDup ds -> Forall no_slash ds ->
    (forall d files, In d ds -> fs0 (dir ++ "/" ++ d)%string = Some files ->
                     NoDup files) ->
    scan_dirs fs0 dir ds = Ok ms -> one_per_path ms.
Proof.
  induction ds as [|d ds IH]; intros ms Hnd Hslash Hfiles Hrun;
    cbn [scan_dirs] in Hrun.
  - inversion Hrun. constructor.
  - apply NoDup_cons_iff in Hnd. destruct Hnd as [Hnotin Hnd].
    inversion Hslash as [|? ? Hd Hslash']; subst.
    match type of Hrun with context [fs0 ?x] =>
      destruct (fs0 x) as [files|] eqn:Hfs end; [|discriminate].
    destruct (scan_dirs fs0 dir ds) as [ms'|e] eqn:Hrest; [|discriminate].
    inversion Hrun. subst ms. apply NoDup_paths_app.
    + apply scan_files_one_per_path; [exact Hd|].
      apply (Hfiles d files); [left; reflexivity | exact Hfs].
    + eapply IH; eauto. intros d' files' Hd' Hfs'.
      apply (Hfiles d' files'); [right; exact Hd' | exact Hfs'].
    + intros m Hm Hin.
      apply (scan_dirs_In fs0 dir ds ms' m Hrest) in Hm.
      destruct Hm as (d' & files' & Hd' & _ & Hm).
      apply scan_files_In in Hm. destruct Hm as (f' & -> & _).
      apply in_map_iff in Hin. destruct Hin as (m0 & Hpath & Hm0).
      apply scan_files_In in Hm0. destruct Hm0 as (f0 & -> & _).
      simpl in Hpath. apply movie_path_inj in Hpath; auto.
      * destruct Hpath as [-> _]. contradiction.
      * rewrite Forall_forall in Hslash'. auto.
Qed.

Lemma visited_NoDup :
  forall l,
    (NoDup l -> NoDup (visited l)) /\
    (forall x, NoDup (x :: l) -> NoDup (visited (x :: l))).
Proof.
  induction l as [|y l [IHl IHyl]].
  - split; [trivial|]. intros x _. cbn [visited].
    destruct (str_in "__" x); repeat constructor. now intros [].
  - split; [apply IHyl|].
    intros x Hnd. apply NoDup_cons_iff in Hnd. destruct Hnd as [Hnotin Hnd].
    change (visited (x :: y :: l))
      with (if str_in "__" x then x :: visited (y :: l) else visited l).
    destruct (str_in "__" x).
    + constructor; [|now apply IHyl].
      intros Hin. apply Hnotin.
      now apply (proj1 (proj1 (visited_facts (y :: l)))).
    + apply IHl. now apply NoDup_cons_iff in Hnd.
Qed.

Lemma get_movies_tidy (fs0 : FS) (dir : string) (ms : list Movie) :
  tidy_tree fs0 dir -> get_movies fs0 dir = Ok ms -> one_per_path ms.
Proof.
  intros Htidy Hrun.
  destruct (fs0 dir) as [directories|] eqn:Hroot;
    [|unfold get_movies in Hrun; rewrite Hroot in Hrun; discriminate].
  destruct (Htidy directories Hroot) as (Hnd & Hslash & Hfiles).
  assert (Hclosed : get_movies fs0 dir
                    = scan_dirs fs0 dir (visited directories)).
  { unfold get_movies. rewrite Hroot.
    rewrite (get_movies_loop_visited fs0 dir _ [] directories []);
      [|exact Hnd|lia].
    now destruct (scan_dirs fs0 dir (visited directories)). }
  rewrite Hclosed in Hrun.
  pose proof (proj1 (proj1 (visited_facts directories))) as Hincl.
  eapply scan_dirs_one_per_path; [| | |exact Hrun].
  - now apply visited_NoDup.
  - rewrite Forall_forall in *. auto.
  - intros d files Hd. apply Hfiles. auto.
Qed.

(** X14.  Discovery returns one movie per path.  With listings as
    [os.listdir] gives them, no name twice and no separator in a name,
    no two of the movies [get_movies] returns have the same path, and
    the path tells the subdirectory and the file apart. *)
Theorem get_movies_one_movie_per_path (fs0 : FS) (dir : string)
    (ms : list Movie)
    (Htidy : tidy_tree fs0 dir) (Hrun : get_movies fs0 dir = Ok ms) :
  NoDup (map path ms) /\
  (forall m1 m2, In m1 ms -> In m2 ms -> path m1 = path m2 -> m1 = m2).
Proof.
  pose proof (get_movies_tidy fs0 dir ms Htidy Hrun) as Hnd.
  split; [exact Hnd|].
  intros m1 m2 H1 H2 Heq. eapply NoDup_map_eq; eauto.
Qed.

Lemma ex_fs_tidy : tidy_tree (ex_fs [ex_akira_dir; ex_movie_dir]) ex_root.
Proof.
  intros directories H. vm_compute in H. inversion H. subst directories.
  split3.
  - nodup_literals.
  - repeat constructor.
  - intros d files [<- | [<- | []]] Hfs; vm_compute in Hfs; inversion Hfs;
      nodup_literals.
Qed.

Lemma get_movies_one_movie_per_path_witness :
  NoDup (map path [ex_akira; ex_movie]) /\
  (forall m1 m2, In m1 [ex_akira; ex_movie] -> In m2 [ex_akira; ex_movie] ->
                 path m1 = path m2 -> m1 = m2).
Proof.
  apply (get_movies_one_movie_per_path
           (ex_fs [ex_akira_dir; ex_movie_dir]) ex_root).
  - exact ex_fs_tidy.
  - vm_compute. reflexivity.
Defined.

(** ** The invariant of the checkpoint files *)

Section FilesHold.

Variable P : list Movie -> Prop.

Lemma files_hold_same (st st' : Proc) :
  primary st' = primary st -> backup st' = backup st ->
  files_hold P st -> files_hold P st'.
Proof. unfold files_hold. intros -> ->. trivial. Qed.

Lemma files_hold_write (f : File) (c : Contents) (st : Proc) :
  (forall ms, c = Pickled ms -> P ms) ->
  files_hold P st -> files_hold P (write_file f c st).
Proof.
  intros Hc (Hp & Hb). destruct f; split; simpl; auto;
    intros ms H; inversion H; auto.
Qed.

Lemma files_hold_log (e : Event) (st : Proc) :
  files_hold P st -> files_hold P (log e st).
Proof. now apply files_hold_same. Qed.

Lemma files_hold_read (f : File) (ms : list Movie) (st : Proc) :
  files_hold P st -> read_file f st = Some (Pickled ms) -> P ms.
Proof. intros (Hp & Hb). destruct f; simpl; auto. Qed.

Lemma tick_files_hold : ensures (files_hold P) tick (fun _ => True).
Proof.
  intros st Hst. split; [|trivial]. unfold tick.
  destruct (ticks st) as [[|k]|]; simpl; exact Hst.
Qed.

Lemma print_files_hold (s : string) :
  ensures (files_hold P) (print s) (fun _ => True).
Proof. intros st Hst. split; [exact Hst|trivial]. Qed.

Lemma print_paths_files_hold (movies : list Movie) :
  ensures (files_hold P) (print_paths movies) (fun _ => True).
Proof.
  intros st Hst. split; [|trivial]. rewrite print_paths_printed. exact Hst.
Qed.

Lemma open_wb_files_hold (f : File) :
  ensures (files_hold P) (open_wb f) (fun _ => True).
Proof.
  unfold open_wb. eapply ensures_bind; [apply tick_files_hold|].
  intros _ _ st Hst. split; [|trivial].
  destruct (read_only f st); cbn [final]; [exact Hst|].
  apply files_hold_write; [discriminate | exact Hst].
Qed.

Lemma pickle_dump_files_hold (movies : list Movie) :
  P movies -> ensures (files_hold P) (pickle_dump movies) (fun _ => True).
Proof.
  intros Hms. unfold pickle_dump.
  eapply ensures_bind; [apply open_wb_files_hold|]. intros _ _.
  eapply ensures_bind; [apply tick_files_hold|]. intros _ _.
  intros st Hst. split; [|trivial]. cbn [final].
  apply files_hold_log, files_hold_write; [|exact Hst].
  intros ms H. inversion H. now subst.
Qed.

Lemma copyfile_files_hold (src dst : File) :
  ensures (files_hold P) (copyfile src dst) (fun _ => True).
Proof.
  intros st Hst. unfold copyfile.
  destruct (read_file src st) as [c|] eqn:Hread;
    [|split; [exact Hst | trivial]].
  assert (Hc : forall ms, c = Pickled ms -> P ms).
  { intros ms ->. eapply files_hold_read; eauto. }
  clear Hread. revert st Hst.
  change (ensures (files_hold P)
            (open_wb dst ;; tick ;;
             fun st' => Done tt (log (Copied src dst) (write_file dst c st')))
            (fun _ => True)).
  eapply ensures_bind; [apply open_wb_files_hold|]. intros _ _.
  eapply ensures_bind; [apply tick_files_hold|]. intros _ _.
  intros st Hst. split; [|trivial]. cbn [final].
  now apply files_hold_log, files_hold_write.
Qed.

Lemma checkpoint_files_hold (movies : list Movie) :
  P movies -> ensures (files_hold P) (checkpoint movies) (fun _ => True).
Proof.
  intros Hms. unfold checkpoint.
  eapply ensures_bind; [now apply pickle_dump_files_hold|].
  intros _ _. apply copyfile_files_hold.
Qed.

Lemma recover_files_hold :
  P [] -> ensures (files_hold P) recover P.
Proof.
  intros Hnil. unfold recover, restore_backup, load_movies.
  eapply ensures_bind.
  - apply ensures_try_except; [apply copyfile_files_hold|].
    now apply ensures_ret.
  - intros _ _. apply ensures_try_except.
    + intros st Hst. unfold pickle_load.
      destruct (primary st) as [[ms|e]|] eqn:Hp; simpl;
        (split; [exact Hst|]); try discriminate.
      intros a st' H. inversion H. subst. destruct Hst as (Hprim & _). auto.
    + eapply ensures_bind; [apply print_files_hold|].
      intros _ _. now apply ensures_ret.
Qed.

Lemma run_tool_files_hold (env : Env) (s : Stage) (movie : Movie) :
  ensures (files_hold P) (run_tool env s movie)
    (fun m => m = set_flag s movie).
Proof.
  unfold run_tool.
  eapply ensures_bind; [apply tick_files_hold|]. intros _ _.
  intros st Hst.
  destruct (tool_ok env s movie); simpl;
    (split; [now apply files_hold_log|]); try discriminate.
  intros a st' H. now inversion H.
Qed.

End FilesHold.

Lemma set_flag_path (s : Stage) (m : Movie) : path (set_flag s m) = path m.
Proof. destruct s; reflexivity. Qed.

Lemma stage_pass_one_per_path (env : Env) (s : Stage) :
  forall rest done,
    one_per_path (done ++ rest) ->
    ensures (files_hold one_per_path) (stage_pass env s done rest)
      one_per_path.
Proof.
  induction rest as [|movie rest IH]; intros done Hnd.
  - apply ensures_ret. now rewrite app_nil_r in Hnd.
  - cbn [stage_pass].
    eapply ensures_bind with (P := fun m => path m = path movie).
    + destruct (negb (flag s movie)); [|now apply ensures_ret].
      eapply ensures_bind; [apply run_tool_files_hold|].
      intros m ->.
      eapply ensures_bind;
        [|intros _ _; apply ensures_ret; apply set_flag_path].
      apply pickle_dump_files_hold.
      unfold one_per_path in *. rewrite map_app in *. cbn [map] in *.
      now rewrite set_flag_path.
    + intros m Hm.
      eapply ensures_bind; [apply copyfile_files_hold|]. intros _ _.
      apply IH. unfold one_per_path in *.
      rewrite <- app_assoc, map_app in *. cbn [map app] in *.
      now rewrite Hm.
Qed.

Lemma run_stages_one_per_path (env : Env) (movies : list Movie) :
  one_per_path movies ->
  ensures (files_hold one_per_path) (run_stages env movies) one_per_path.
Proof.
  intros Hms. unfold run_stages.
  eapply ensures_bind; [now apply stage_pass_one_per_path|]. intros l1 H1.
  eapply ensures_bind; [now apply stage_pass_one_per_path|]. intros l2 H2.
  eapply ensures_bind; [now apply stage_pass_one_per_path|]. intros l3 H3.
  eapply ensures_bind with (P := fun _ => True);
    [|intros _ _; now apply ensures_ret].
  intros st Hst. rewrite merge_pass_nothing. auto.
Qed.

Lemma merge_movies_tidy (movies newMovies : list Movie) :
  one_per_path movies -> one_per_path newMovies ->
  one_per_path (movies ++ remove_known movies newMovies).
Proof.
  unfold one_per_path. intros Hm Hn.
  rewrite remove_known_filter by exact Hn.
  apply NoDup_paths_app; [exact Hm | now apply NoDup_map_filter |].
  intros m Hin. apply filter_In in Hin. destruct Hin as [_ Hunk].
  now apply unknown_to_spec.
Qed.

Lemma startup_one_per_path (env : Env) :
  tidy_tree (fs env) (cwd env ++ "/toConvert/")%string ->
  ensures (files_hold one_per_path) (startup env) one_per_path.
Proof.
  intros Htidy. unfold startup.
  eapply ensures_bind; [apply recover_files_hold; constructor|].
  intros movies Hms.
  eapply ensures_bind; [apply print_files_hold|]. intros _ _.
  eapply ensures_bind; [apply print_files_hold|]. intros _ _.
  eapply ensures_bind; [apply print_paths_files_hold|]. intros _ _.
  eapply ensures_bind; [apply print_files_hold|]. intros _ _.
  eapply ensures_bind with (P := one_per_path).
  { intros st Hst. unfold lift.
    destruct (get_movies _ _) as [ms|e] eqn:Hget; simpl;
      (split; [exact Hst|]); try discriminate.
    intros a st' H. inversion H. subst.
    eapply get_movies_tidy; eauto. }
  intros newMovies Hnew.
  pose proof (merge_movies_tidy movies newMovies Hms Hnew) as Hall.
  eapply ensures_bind; [apply print_files_hold|]. intros _ _.
  eapply ensures_bind; [apply print_files_hold|]. intros _ _.
  eapply ensures_bind; [apply print_paths_files_hold|]. intros _ _.
  eapply ensures_bind; [now apply checkpoint_files_hold|]. intros _ _.
  now apply ensures_ret.
Qed.

(** X15.  The registry never holds two entries for one path.  With
    listings as [os.listdir] gives them, a run that starts on
    checkpoint files whose registries have one entry per path, or on
    none, leaves such files however it ends, also for the process
    started after it; and the registry it ends with when it ends well
    has one entry per path. *)
Theorem main_keeps_one_entry_per_path (env : Env) (st : Proc)
    (Htidy : tidy_tree (fs env) (cwd env ++ "/toConvert/")%string)
    (Hfiles : files_hold one_per_path st) :
  files_hold one_per_path (final (main env st)) /\
  (forall k, files_hold one_per_path (restart k (final (main env st)))) /\
  (forall movies st', main env st = Done movies st' -> one_per_path movies).
Proof.
  assert (H : ensures (files_hold one_per_path) (main env) one_per_path).
  { unfold main.
    eapply ensures_bind; [now apply startup_one_per_path|].
    intros movies Hms.
    eapply ensures_bind; [now apply run_stages_one_per_path|].
    intros l Hl.
    eapply ensures_bind with (P := fun _ => True);
      [|intros _ _; now apply ensures_ret].
    intros st0 Hst0. rewrite report_printed. simpl. split; [|trivial].
    exact Hst0. }
  destruct (H st Hfiles) as [Hfin Hret].
  split3; [exact Hfin | | exact Hret].
  intros k. exact Hfin.
Qed.

Lemma main_keeps_one_entry_per_path_witness :
  files_hold one_per_path
    (final (main (ex_env [ex_akira_dir; ex_movie_dir]) (ex_fresh None))) /\
  one_per_path
    (map (advance Encode)
       (map (advance Convert) (map (advance Extract) [ex_akira; ex_movie]))).
Proof.
  assert (Hfresh : files_hold one_per_path (ex_fresh None))
    by (split; discriminate).
  destruct (main_keeps_one_entry_per_path
              (ex_env [ex_akira_dir; ex_movie_dir]) (ex_fresh None)
              ex_fs_tidy Hfresh) as (Hfin & _ & Hret).
  split; [exact Hfin|].
  eapply Hret. vm_compute. reflexivity.
Defined.

(* ================================================================== *)
(** * A second run over a finished registry *)

Lemma runs_ret {A : Type} (I : Proc -> Prop) (Q : A -> Prop) (a : A) :
  Q a -> runs I (ret a) Q.
Proof. intros Ha st Hst. now exists a, st. Qed.

Lemma runs_bind {A B : Type} (I : Proc -> Prop) (P : A -> Prop)
    (Q : B -> Prop) (c : M A) (k : A -> M B) :
  runs I c P -> (forall a, P a -> runs I (k a) Q) -> runs I (bind c k) Q.
Proof.
  intros Hc Hk st Hst. destruct (Hc st Hst) as (a & st1 & Hrun & Hst1 & Ha).
  destruct (Hk a Ha st1 Hst1) as (b & st2 & Hrun2 & Hst2 & Hb).
  exists b, st2. split3; auto. unfold bind. now rewrite Hrun.
Qed.

Lemma runs_weaken {A : Type} (I : Proc -> Prop) (P Q : A -> Prop)
    (c : M A) :
  runs I c P -> (forall a, P a -> Q a) -> runs I c Q.
Proof.
  intros Hc HPQ st Hst. destruct (Hc st Hst) as (a & st1 & Hrun & Hst1 & Ha).
  exists a, st1. auto.
Qed.

(** Takes a settled state apart. *)
Ltac settled_state st H :=
  destruct st as [p b pr br out evs k];
  destruct H as (Hk & Hpr & Hbr & Hp & Hb & Hev);
  simpl in Hk, Hpr, Hbr, Hp, Hb, Hev; subst k pr br p b.

Section Settled.

Variable ms : list Movie.

Lemma print_settled (s : string) :
  runs (settled ms) (print s) (fun _ => True).
Proof.
  intros st Hst. exists tt. eexists. split; [reflexivity|].
  split; [exact Hst | trivial].
Qed.

Lemma print_paths_settled (movies : list Movie) :
  runs (settled ms) (print_paths movies) (fun _ => True).
Proof.
  intros st Hst. exists tt. eexists. split; [apply print_paths_printed|].
  split; [exact Hst | trivial].
Qed.

Lemma recover_settled : runs (settled ms) recover (fun l => l = ms).
Proof.
  intros st Hst. settled_state st Hst.
  exists ms. eexists. split; [reflexivity|]. split; [|reflexivity].
  unfold settled. simpl. rewrite invocations_app, Hev. auto 10.
Qed.

Lemma copy_to_backup_settled :
  runs (settled ms) (copyfile Primary Backup) (fun _ => True).
Proof.
  intros st Hst. settled_state st Hst.
  exists tt. eexists. split; [reflexivity|]. split; [|trivial].
  unfold settled. simpl. rewrite invocations_app, Hev. auto 10.
Qed.

Lemma checkpoint_settled :
  runs (settled ms) (checkpoint ms) (fun _ => True).
Proof.
  intros st Hst. settled_state st Hst.
  exists tt. eexists. split; [reflexivity|]. split; [|trivial].
  unfold settled. simpl. rewrite !invocations_app, Hev. auto 10.
Qed.

Lemma stage_pass_settled (env : Env) (s : Stage) :
  forall rest done,
    Forall (fun m => flag s m = true) rest ->
    runs (settled ms) (stage_pass env s done rest)
      (fun l => l = done ++ rest).
Proof.
  induction rest as [|movie rest IH]; intros done Hall.
  - apply runs_ret. now rewrite app_nil_r.
  - inversion Hall as [|? ? Hm Hrest]; subst. cbn [stage_pass].
    rewrite Hm. cbn [negb].
    eapply runs_bind with (P := fun m => m = movie);
      [now apply runs_ret|].
    intros m ->.
    eapply runs_bind; [apply copy_to_backup_settled|]. intros _ _.
    eapply runs_weaken; [apply IH, Hrest|].
    intros l ->. now rewrite <- app_assoc.
Qed.

Lemma run_stages_settled (env : Env) (movies : list Movie) :
  Forall encoded_through movies ->
  runs (settled ms) (run_stages env movies) (fun l => l = movies).
Proof.
  intros Hall. unfold run_stages.
  eapply runs_bind.
  { apply stage_pass_settled with (done := []).
    eapply Forall_impl; [|exact Hall]. now intros m (H1 & _ & _). }
  intros l1 ->. cbn [app].
  eapply runs_bind.
  { apply stage_pass_settled with (done := []).
    eapply Forall_impl; [|exact Hall]. now intros m (_ & H2 & _). }
  intros l2 ->. cbn [app].
  eapply runs_bind.
  { apply stage_pass_settled with (done := []).
    eapply Forall_impl; [|exact Hall]. now intros m (_ & _ & H3). }
  intros l3 ->. cbn [app].
  eapply runs_bind with (P := fun _ => True);
    [|intros _ _; now apply runs_ret].
  intros st Hst. exists tt, st. split; [apply merge_pass_nothing|]. auto.
Qed.

(** A run over a settled registry that is encoded through, when
    discovery finds no path that is new to it. *)
Lemma main_settled (env : Env) (newMovies : list Movie) :
  Forall encoded_through ms ->
  get_movies (fs env) (cwd env ++ "/toConvert/")%string = Ok newMovies ->
  remove_known ms newMovies = [] ->
  runs (settled ms) (main env) (fun l => l = ms).
Proof.
  intros Hall Hget Hknown. unfold main, startup.
  eapply runs_bind with (P := fun l => l = ms).
  { eapply runs_bind; [apply recover_settled|]. intros movies ->.
    eapply runs_bind; [apply print_settled|]. intros _ _.
    eapply runs_bind; [apply print_settled|]. intros _ _.
    eapply runs_bind; [apply print_paths_settled|]. intros _ _.
    eapply runs_bind; [apply print_settled|]. intros _ _.
    eapply runs_bind with (P := fun l => l = newMovies).
    { intros st Hst. rewrite Hget. exists newMovies, st. auto. }
    intros l ->. cbv zeta. rewrite Hknown, app_nil_r.
    eapply runs_bind; [apply print_settled|]. intros _ _.
    eapply runs_bind; [apply print_settled|]. intros _ _.
    eapply runs_bind; [apply print_paths_settled|]. intros _ _.
    eapply runs_bind; [apply checkpoint_settled|]. intros _ _.
    now apply runs_ret. }
  intros movies ->.
  eapply runs_bind; [now apply run_stages_settled|]. intros l ->.
  eapply runs_bind with (P := fun _ => True);
    [|intros _ _; now apply runs_ret].
  intros st Hst. exists tt. eexists. split; [apply report_printed|].
  split; [exact Hst | trivial].
Qed.

End Settled.

(** What the steps of a pass that end well leave of the files. *)
Lemma run_tool_Done_frame (env : Env) (s : Stage) (movie m : Movie)
    (st st' : Proc) :
  run_tool env s movie st = Done m st' ->
  primary st' = primary st /\ backup st' = backup st /\
  primary_ro st' = primary_ro st /\ backup_ro st' = backup_ro st.
Proof.
  unfold run_tool, bind, tick.
  destruct (ticks st) as [[|k]|]; try discriminate;
    destruct (tool_ok env s movie); try discriminate;
    intros H; inversion H; auto.
Qed.

Lemma pickle_dump_Done_inv (movies : list Movie) (st st' : Proc) :
  pickle_dump movies st = Done tt st' ->
  primary st' = Some (Pickled movies) /\ backup st' = backup st /\
  primary_ro st' = false /\ primary_ro st = false /\
  backup_ro st' = backup_ro st.
Proof.
  destruct st as [p b pr br out evs k].
  destruct pr, k as [[|[|k]]|]; run_prim; try discriminate;
    intros H; inversion H; auto.
Qed.

Lemma copy_to_backup_Done_inv (st st' : Proc) :
  copyfile Primary Backup st = Done tt st' ->
  backup st' = primary st /\ primary st' = primary st /\
  primary_ro st' = primary_ro st /\ backup_ro st' = false /\
  backup_ro st = false.
Proof.
  destruct st as [p b pr br out evs k].
  destruct p as [c|], br, k as [[|[|k]]|]; run_prim; try discriminate;
    intros H; inversion H; auto.
Qed.

Lemma stage_pass_Done_files (env : Env) (s : Stage) :
  forall rest done st l st',
    stage_pass env s done rest st = Done l st' ->
    primary st = Some (Pickled (done ++ rest)) ->
    backup st = Some (Pickled (done ++ rest)) ->
    primary_ro st = false -> backup_ro st = false ->
    primary st' = Some (Pickled l) /\ backup st' = Some (Pickled l) /\
    primary_ro st' = false /\ backup_ro st' = false.
Proof.
  induction rest as [|movie rest IH]; intros done st l st' H Hp Hb Hpr Hbr.
  - cbn in H. inversion H. subst. rewrite app_nil_r in *. auto.
  - cbn [stage_pass] in H.
    apply bind_Done_inv in H. destruct H as (m & st1 & Hturn & H).
    apply bind_Done_inv in H. destruct H as ([] & st2 & Hcopy & H).
    apply copy_to_backup_Done_inv in Hcopy.
    destruct Hcopy as (Hb2 & Hp2 & Hpr2 & Hbr2 & _).
    assert (Hst1 : primary st1 = Some (Pickled (done ++ m :: rest)) /\
                   primary_ro st1 = false).
    { destruct (negb (flag s movie)).
      - apply bind_Done_inv in Hturn.
        destruct Hturn as (m' & st3 & Htool & Hturn).
        apply bind_Done_inv in Hturn.
        destruct Hturn as ([] & st4 & Hdump & Hret).
        inversion Hret. subst.
        apply pickle_dump_Done_inv in Hdump. tauto.
      - inversion Hturn. subst. auto. }
    destruct Hst1 as [Hp1 Hpr1].
    apply IH in H; [exact H| | | |];
      rewrite <- ?app_assoc; cbn [app]; congruence.
Qed.

Lemma run_stages_Done_files (env : Env) (movies l : list Movie)
    (st st' : Proc) :
  run_stages env movies st = Done l st' ->
  primary st = Some (Pickled movies) -> backup st = Some (Pickled movies) ->
  primary_ro st = false -> backup_ro st = false ->
  primary st' = Some (Pickled l) /\ backup st' = Some (Pickled l) /\
  primary_ro st' = false /\ backup_ro st' = false.
Proof.
  unfold run_stages. intros H Hp Hb Hpr Hbr.
  apply bind_Done_inv in H. destruct H as (l1 & st1 & H1 & H).
  apply bind_Done_inv in H. destruct H as (l2 & st2 & H2 & H).
  apply bind_Done_inv in H. destruct H as (l3 & st3 & H3 & H).
  rewrite (bind_Done _ _ _ _ _ (merge_pass_nothing l3 st3)) in H.
  inversion H. subst.
  apply stage_pass_Done_files in H1; auto.
  destruct H1 as (? & ? & ? & ?).
  apply stage_pass_Done_files in H2; auto.
  destruct H2 as (? & ? & ? & ?).
  apply stage_pass_Done_files in H3; auto.
Qed.

Lemma startup_Done_files (env : Env) (movies : list Movie) (st st' : Proc) :
  startup env st = Done movies st' ->
  primary st' = Some (Pickled movies) /\ backup st' = Some (Pickled movies) /\
  primary_ro st' = false /\ backup_ro st' = false.
Proof.
  unfold startup. intros H.
  apply bind_Done_inv in H. destruct H as (recovered & st1 & _ & H).
  rewrite !bind_print, bind_print_paths, bind_print in H.
  apply bind_Done_inv in H. destruct H as (newMovies & st2 & _ & H).
  rewrite !bind_print, bind_print_paths in H.
  apply bind_Done_inv in H. destruct H as ([] & st3 & Hcp & H).
  inversion H. subst. clear H.
  unfold checkpoint in Hcp.
  apply bind_Done_inv in Hcp. destruct Hcp as ([] & st4 & Hdump & Hcopy).
  apply pickle_dump_Done_inv in Hdump.
  apply copy_to_backup_Done_inv in Hcopy.
  destruct Hdump as (Hp & _ & Hpr & _), Hcopy as (Hb & Hp' & Hpr' & Hbr & _).
  split; [congruence|]. split; [congruence|]. split; [congruence|].
  exact Hbr.
Qed.

Lemma run_stages_Done_encoded_through (env : Env) (movies l : list Movie)
    (st st' : Proc) :
  run_stages env movies st = Done l st' -> Forall encoded_through l.
Proof.
  intros H. apply run_stages_result in H. subst l.
  rewrite !Forall_map. apply Forall_forall. intros m _. split3.
  - apply (advance_keeps_flag Encode Extract),
      (advance_keeps_flag Convert Extract), (advance_flag Extract).
  - apply (advance_keeps_flag Encode Convert), (advance_flag Convert).
  - apply (advance_flag Encode).
Qed.

Lemma main_Done_settled (env : Env) (movies : list Movie) (st st' : Proc) :
  main env st = Done movies st' ->
  settled movies (restart None st') /\ Forall encoded_through movies.
Proof.
  unfold main. intros H.
  apply bind_Done_inv in H. destruct H as (m0 & st1 & Hstart & H).
  apply bind_Done_inv in H. destruct H as (l & st2 & Hrun & H).
  rewrite (bind_Done _ _ _ _ _ (report_printed l st2)) in H.
  inversion H. subst. clear H.
  apply startup_Done_files in Hstart.
  destruct Hstart as (Hp & Hb & Hpr & Hbr).
  pose proof (run_stages_Done_encoded_through _ _ _ _ _ Hrun) as Hall.
  apply run_stages_Done_files in Hrun; auto.
  destruct Hrun as (Hp2 & Hb2 & Hpr2 & Hbr2).
  split; [|exact Hall].
  unfold settled. simpl. auto 10.
Qed.

Lemma remove_known_all_known (movies newMovies : list Movie) :
  one_per_path newMovies ->
  (forall m, In m newMovies -> In (path m) (map path movies)) ->
  remove_known movies newMovies = [].
Proof.
  intros Hnd Hknown. rewrite remove_known_filter by exact Hnd.
  clear Hnd. induction newMovies as [|m l IH]; [reflexivity|].
  cbn [filter].
  destruct (unknown_to movies m) eqn:Hm.
  - apply unknown_to_spec in Hm. exfalso. apply Hm, Hknown. now left.
  - apply IH. intros m' Hin. apply Hknown. now right.
Qed.

(** X16.  Resumption is idempotent.  After a run that has ended well,
    the next run, for which discovery finds no path that is new to the
    registry, as it does when the tree is as it was, ends well, too,
    with the same registry in both files, and calls no tool. *)
Theorem next_run_after_finished_run_calls_no_tool (env env' : Env)
    (movies newMovies : list Movie) (st st' : Proc)
    (Hfirst : main env st = Done movies st')
    (Htidy : tidy_tree (fs env') (cwd env' ++ "/toConvert/")%string)
    (Hget : get_movies (fs env') (cwd env' ++ "/toConvert/")%string
            = Ok newMovies)
    (Hknown : forall m, In m newMovies -> In (path m) (map path movies)) :
  exists st'',
    main env' (restart None st') = Done movies st'' /\
    invocations (events st'') = [] /\
    primary st'' = Some (Pickled movies) /\
    backup st'' = Some (Pickled movies).
Proof.
  apply main_Done_settled in Hfirst. destruct Hfirst as [Hset Hall].
  pose proof (get_movies_tidy _ _ _ Htidy Hget) as Hnd.
  pose proof (remove_known_all_known movies newMovies Hnd Hknown) as Hrm.
  destruct (main_settled movies env' newMovies Hall Hget Hrm _ Hset)
    as (l & st'' & Hrun & Hset'' & ->).
  exists st''. split; [exact Hrun|].
  destruct Hset'' as (_ & _ & _ & Hp & Hb & Hev). auto.
Qed.

Lemma next_run_after_finished_run_calls_no_tool_witness :
  exists st'',
    main (ex_env [ex_akira_dir; ex_movie_dir])
      (restart None
         (final (main (ex_env [ex_akira_dir; ex_movie_dir])
                   (ex_fresh None))))
    = Done (map (advance Encode)
              (map (advance Convert)
                 (map (advance Extract) [ex_akira; ex_movie]))) st'' /\
    invocations (events st'') = [] /\
    primary st''
    = Some (Pickled
              (map (advance Encode)
                 (map (advance Convert)
                    (map (advance Extract) [ex_akira; ex_movie])))) /\
    backup st''
    = Some (Pickled
              (map (advance Encode)
                 (map (advance Convert)
                    (map (advance Extract) [ex_akira; ex_movie])))).
Proof.
  apply (next_run_after_finished_run_calls_no_tool
           (ex_env [ex_akira_dir; ex_movie_dir])
           (ex_env [ex_akira_dir; ex_movie_dir])
           _ [ex_akira; ex_movie] (ex_fresh None)).
  - vm_compute. reflexivity.
  - exact ex_fs_tidy.
  - vm_compute. reflexivity.
  - intros m [<- | [<- | []]]; vm_compute; auto.
Defined.

Lemma startup_Done_discovered (env : Env) (movies : list Movie)
    (st st' : Proc) :
  startup env st = Done movies st' ->
  exists recovered newMovies,
    get_movies (fs env) (cwd env ++ "/toConvert/")%string = Ok newMovies /\
    movies = recovered ++ remove_known recovered newMovies.
Proof.
  unfold startup. intros H.
  apply bind_Done_inv in H. destruct H as (recovered & st1 & _ & H).
  rewrite !bind_print, bind_print_paths, bind_print in H.
  apply bind_Done_inv in H. destruct H as (newMovies & st2 & Hget & H).
  apply lift_Done_inv in Hget. destruct Hget as [Hget _].
  rewrite !bind_print, bind_print_paths in H.
  apply bind_Done_inv in H. destruct H as ([] & st3 & _ & H).
  inversion H. now exists recovered, newMovies.
Qed.

Lemma merge_covers_discovered (recovered newMovies : list Movie) (m : Movie) :
  In m newMovies ->
  In (path m) (map path (recovered ++ remove_known recovered newMovies)).
Proof.
  intros Hin. rewrite map_app. apply in_or_app.
  destruct (in_dec string_dec (path m) (map path recovered))
    as [Hold | Hnew]; [now left|].
  right. apply in_map. now apply remove_known_keeps.
Qed.

(** X17.  Running twice in a row.  When a run has ended well and the
    tree below [toConvert] is as that run found it, the next run ends
    well with the same registry, leaves it in both checkpoint files and
    calls no tool: every movie it discovers is known by its path, and
    every movie of the registry is encoded through. *)
Theorem rerun_on_same_tree_calls_no_tool (env : Env) (movies : list Movie)
    (st st' : Proc)
    (Htidy : tidy_tree (fs env) (cwd env ++ "/toConvert/")%string)
    (Hfirst : main env st = Done movies st') :
  exists st'',
    main env (restart None st') = Done movies st'' /\
    invocations (events st'') = [] /\
    primary st'' = Some (Pickled movies) /\
    backup st'' = Some (Pickled movies).
Proof.
  pose proof (main_Done_settled _ _ _ _ Hfirst) as [Hset Hall].
  unfold main in Hfirst.
  apply bind_Done_inv in Hfirst.
  destruct Hfirst as (m0 & st1 & Hstart & Hfirst).
  apply bind_Done_inv in Hfirst.
  destruct Hfirst as (l & st2 & Hrun & Hfirst).
  rewrite (bind_Done _ _ _ _ _ (report_printed l st2)) in Hfirst.
  inversion Hfirst. subst l st'. clear Hfirst.
  apply startup_Done_discovered in Hstart.
  destruct Hstart as (recovered & newMovies & Hget & ->).
  apply run_stages_result in Hrun.
  assert (Hknown : forall m, In m newMovies -> In (path m) (map path movies)).
  { intros m Hin. subst movies. rewrite !map_map.
    erewrite map_ext; [apply merge_covers_discovered, Hin|].
    intros a. simpl. now rewrite !advance_path. }
  pose proof (get_movies_tidy _ _ _ Htidy Hget) as Hnd.
  pose proof (remove_known_all_known movies newMovies Hnd Hknown) as Hrm.
  destruct (main_settled movies env newMovies Hall Hget Hrm _ Hset)
    as (l & st'' & Hrun'' & Hset'' & ->).
  exists st''. split; [exact Hrun''|].
  destruct Hset'' as (_ & _ & _ & Hp & Hb & Hev). auto.
Qed.

Lemma rerun_on_same_tree_calls_no_tool_witness :
  exists st'',
    main (ex_env [ex_akira_dir; ex_movie_dir])
      (restart None
         (final (main (ex_env [ex_akira_dir; ex_movie_dir])
                   (ex_checkpointed [ex_akira]))))
    = Done [ex_encoded; ex_encoded_movie] st'' /\
    invocations (events st'') = [] /\
    primary st'' = Some (Pickled [ex_encoded; ex_encoded_movie]) /\
    backup st'' = Some (Pickled [ex_encoded; ex_encoded_movie]).
Proof.
  apply (rerun_on_same_tree_calls_no_tool
           (ex_env [ex_akira_dir; ex_movie_dir]) _
           (ex_checkpointed [ex_akira])).
  - exact ex_fs_tidy.
  - vm_compute. reflexivity.
Defined.

(* ================================================================== *)
(** * Never without a registry *)

Lemma crash_safe_bind {A B : Type} (I J J1 J2 : Proc -> Prop)
    (c : M A) (k : A -> M B) :
  crash_safe I J c J1 -> (forall a, crash_safe I J1 (k a) J2) ->
  crash_safe I J (bind c k) J2.
Proof.
  intros Hc Hk st Hst. destruct (Hc st Hst) as [Hfin Hret].
  destruct (bind_cases c k st)
    as [(a & st1 & Hrun & ->) | (-> & _ & Hnot)].
  - apply (Hk a st1), (Hret a), Hrun.
  - split; [exact Hfin|]. intros b st' H. now apply Hnot in H.
Qed.

Lemma crash_safe_pre {A : Type} (I J0 J J' : Proc -> Prop) (c : M A) :
  (forall st, J0 st -> J st) -> crash_safe I J c J' -> crash_safe I J0 c J'.
Proof. intros H0 Hc st Hst. apply Hc, H0, Hst. Qed.

(** A step that leaves the two files alone. *)
Lemma crash_safe_frame {A : Type}
    (RI R : option Contents -> option Contents -> Prop) (c : M A) :
  (forall st, primary (final (c st)) = primary st /\
              backup (final (c st)) = backup st) ->
  (forall p b, R p b -> RI p b) ->
  crash_safe (on_files RI) (on_files R) c (on_files R).
Proof.
  intros Hframe Hsub st Hst. unfold on_files in *.
  destruct (Hframe st) as [Hp Hb]. split.
  - rewrite Hp, Hb. auto.
  - intros a st' Hrun. rewrite Hrun in Hp, Hb. simpl in Hp, Hb.
    now rewrite Hp, Hb.
Qed.

Lemma print_frame (s : string) (st : Proc) :
  primary (final (print s st)) = primary st /\
  backup (final (print s st)) = backup st.
Proof. split; reflexivity. Qed.

Lemma print_paths_frame (movies : list Movie) (st : Proc) :
  primary (final (print_paths movies st)) = primary st /\
  backup (final (print_paths movies st)) = backup st.
Proof. rewrite print_paths_printed. split; reflexivity. Qed.

Lemma lift_frame {A : Type} (r : result A) (st : Proc) :
  primary (final (lift r st)) = primary st /\
  backup (final (lift r st)) = backup st.
Proof. destruct r; split; reflexivity. Qed.

Lemma run_tool_frame (env : Env) (s : Stage) (movie : Movie) (st : Proc) :
  primary (final (run_tool env s movie st)) = primary st /\
  backup (final (run_tool env s movie st)) = backup st.
Proof.
  unfold run_tool, bind, tick.
  destruct (ticks st) as [[|k]|]; simpl;
    destruct (tool_ok env s movie); split; reflexivity.
Qed.

Lemma ret_frame {A : Type} (a : A) (st : Proc) :
  primary (final (ret a st)) = primary st /\
  backup (final (ret a st)) = backup st.
Proof. split; reflexivity. Qed.

Lemma merge_pass_frame (movies : list Movie) (st : Proc) :
  primary (final (merge_pass movies st)) = primary st /\
  backup (final (merge_pass movies st)) = backup st.
Proof. rewrite merge_pass_nothing. split; reflexivity. Qed.

Lemma report_frame (movies : list Movie) (st : Proc) :
  primary (final (report movies st)) = primary st /\
  backup (final (report movies st)) = backup st.
Proof. rewrite report_printed. split; reflexivity. Qed.

(** Closes a goal about [whole] files of a state that is written out. *)
Ltac whole_solve :=
  unfold some_whole, backup_whole, both_whole, on_files, whole in *;
  simpl in *;
  repeat match goal with
         | H : _ /\ _ |- _ => destruct H
         | H : exists _, _ |- _ => destruct H
         end;
  try discriminate;
  repeat split; eauto.

Lemma recover_crash_safe :
  crash_safe some_whole backup_whole recover backup_whole.
Proof.
  intros st Hst. destruct st as [p b pr br out evs k].
  unfold backup_whole, on_files, whole in Hst. simpl in Hst.
  destruct Hst as (ms & ->).
  destruct p as [[ms'|e]|], pr, k as [[|[|k]]|]; run_prim;
    repeat match goal with
           | |- context [Exn_eqb ?x ?y] => destruct x; simpl
           end;
    (split; [whole_solve | intros a st' H; inversion H; whole_solve]).
Qed.

Lemma pickle_dump_crash_safe (movies : list Movie) :
  crash_safe some_whole backup_whole (pickle_dump movies) both_whole.
Proof.
  intros st Hst. destruct st as [p b pr br out evs k].
  unfold backup_whole, on_files, whole in Hst. simpl in Hst.
  destruct Hst as (ms & ->).
  destruct pr, k as [[|[|k]]|]; run_prim;
    (split; [whole_solve | intros a st' H; inversion H; whole_solve]).
Qed.

Lemma copy_to_backup_crash_safe :
  crash_safe some_whole both_whole (copyfile Primary Backup) both_whole.
Proof.
  intros st Hst. destruct st as [p b pr br out evs k].
  unfold both_whole, on_files, whole in Hst. simpl in Hst.
  destruct Hst as ((ms & ->) & (ms' & ->)).
  destruct br, k as [[|[|k]]|]; run_prim;
    (split; [whole_solve | intros a st' H; inversion H; whole_solve]).
Qed.

Lemma both_whole_backup (st : Proc) : both_whole st -> backup_whole st.
Proof. unfold both_whole, backup_whole, on_files. tauto. Qed.

Lemma stage_pass_crash_safe (env : Env) (s : Stage) :
  forall rest done,
    crash_safe some_whole both_whole (stage_pass env s done rest) both_whole.
Proof.
  induction rest as [|movie rest IH]; intros done.
  - apply crash_safe_frame; [apply ret_frame | tauto].
  - cbn [stage_pass]. eapply crash_safe_bind with (J1 := both_whole).
    + destruct (negb (flag s movie)).
      * eapply crash_safe_bind with (J1 := both_whole).
        { apply crash_safe_frame; [apply run_tool_frame | tauto]. }
        intros m. eapply crash_safe_bind with (J1 := both_whole).
        { eapply crash_safe_pre; [apply both_whole_backup|].
          apply pickle_dump_crash_safe. }
        intros _. apply crash_safe_frame; [apply ret_frame | tauto].
      * apply crash_safe_frame; [apply ret_frame | tauto].
    + intros m. eapply crash_safe_bind; [apply copy_to_backup_crash_safe|].
      intros _. apply IH.
Qed.

Lemma run_stages_crash_safe (env : Env) (movies : list Movie) :
  crash_safe some_whole both_whole (run_stages env movies) both_whole.
Proof.
  unfold run_stages.
  eapply crash_safe_bind; [apply stage_pass_crash_safe|]. intros l1.
  eapply crash_safe_bind; [apply stage_pass_crash_safe|]. intros l2.
  eapply crash_safe_bind; [apply stage_pass_crash_safe|]. intros l3.
  eapply crash_safe_bind with (J1 := both_whole).
  { apply crash_safe_frame; [apply merge_pass_frame | tauto]. }
  intros _. apply crash_safe_frame; [apply ret_frame | tauto].
Qed.

Lemma startup_crash_safe (env : Env) :
  crash_safe some_whole backup_whole (startup env) both_whole.
Proof.
  unfold startup.
  eapply crash_safe_bind; [apply recover_crash_safe|]. intros movies.
  eapply crash_safe_bind with (J1 := backup_whole).
  { apply crash_safe_frame; [apply print_frame | tauto]. } intros _.
  eapply crash_safe_bind with (J1 := backup_whole).
  { apply crash_safe_frame; [apply print_frame | tauto]. } intros _.
  eapply crash_safe_bind with (J1 := backup_whole).
  { apply crash_safe_frame; [apply print_paths_frame | tauto]. } intros _.
  eapply crash_safe_bind with (J1 := backup_whole).
  { apply crash_safe_frame; [apply print_frame | tauto]. } intros _.
  eapply crash_safe_bind with (J1 := backup_whole).
  { apply crash_safe_frame; [apply lift_frame | tauto]. } intros newMovies.
  cbv zeta.
  eapply crash_safe_bind with (J1 := backup_whole).
  { apply crash_safe_frame; [apply print_frame | tauto]. } intros _.
  eapply crash_safe_bind with (J1 := backup_whole).
  { apply crash_safe_frame; [apply print_frame | tauto]. } intros _.
  eapply crash_safe_bind with (J1 := backup_whole).
  { apply crash_safe_frame; [apply print_paths_frame | tauto]. } intros _.
  eapply crash_safe_bind with (J1 := both_whole).
  { unfold checkpoint.
    eapply crash_safe_bind; [apply pickle_dump_crash_safe|]. intros _.
    apply copy_to_backup_crash_safe. }
  intros _. apply crash_safe_frame; [apply ret_frame | tauto].
Qed.

(** X18.  Never without a registry.  A run that starts with a backup
    that holds a complete registry leaves at least one of the two
    checkpoint files holding a complete registry, wherever it is
    terminated, whichever tool fails and whichever file cannot be
    written; and both files hold one when the run ends well. *)
Theorem run_keeps_a_whole_checkpoint (env : Env) (st : Proc)
    (Hbackup : whole (backup st)) :
  (whole (primary (final (main env st))) \/
   whole (backup (final (main env st)))) /\
  (forall movies st',
      main env st = Done movies st' ->
      whole (primary st') /\ whole (backup st')).
Proof.
  assert (H : crash_safe some_whole backup_whole (main env) both_whole).
  { unfold main.
    eapply crash_safe_bind; [apply startup_crash_safe|]. intros movies.
    eapply crash_safe_bind; [apply run_stages_crash_safe|]. intros l.
    eapply crash_safe_bind with (J1 := both_whole).
    { apply crash_safe_frame; [apply report_frame | tauto]. }
    intros _. apply crash_safe_frame; [apply ret_frame | tauto]. }
  exact (H st Hbackup).
Qed.

Lemma run_keeps_a_whole_checkpoint_witness :
  whole (primary (final (main (ex_env [ex_akira_dir]) (ex_hostile 3)))) \/
  whole (backup (final (main (ex_env [ex_akira_dir]) (ex_hostile 3)))).
Proof.
  apply (run_keeps_a_whole_checkpoint (ex_env [ex_akira_dir])
           (ex_hostile 3)).
  exists [ex_akira]. reflexivity.
Defined.
